(** * Verification of the InputField and DataTable components

    A shallow embedding of [src/components/InputField/InputField.tsx] and
    [src/components/DataTable/DataTable.tsx].  Each component is a function
    from props and hook state to a view; event handlers are state
    transformers that also report the caller callbacks they invoke.

    Styling (class names, icons) is left out; every attribute or element a
    property speaks about is kept. *)

From Stdlib Require Import ZArith.
From stdpp Require Import base decidable option list sorting gmap strings.

Local Open Scope string_scope.
Local Open Scope Z_scope.

(** ** JavaScript truthiness of an optional string prop

    [undefined] and the empty string are falsy, every other string is
    truthy.  This is what [s && ...] and [s ? ... : ...] test. *)
Definition truthy (s : option string) : bool :=
  match s with
  | Some EmptyString => false
  | Some _ => true
  | None => false
  end.

(** ** InputField.tsx *)
Module InputField.

(** The props the component destructures (lines 20-38).  Callbacks are
    represented by their presence; [type_] has the default ['text'], the
    flags default to [false].  The remaining attributes, which the
    component hands to the [input] element untouched ([...props]), are
    the subject of [InputFieldSpread] below. *)
Record InputFieldProps := {
  label : option string;
  placeholder : option string;
  helperText : option string;
  errorMessage : option string;
  disabled : bool;
  invalid : bool;
  loading : bool;
  type_ : string;
  value : option string;
  onChange : bool;
  onClear : bool;
  showClearButton : bool;
  id : option string;
}.

(** Hook state: [useState(false)] for the password toggle and the
    identifier handed out by [useId()], fixed for the instance. *)
Record Hooks := {
  isPasswordVisible : bool;
  generatedId : string;
}.

(** Calls made back into the caller. *)
Inductive Callback :=
  | CallOnClear
  | CallOnChange (text : string).

(** What a button's [onClick] is bound to. *)
Inductive Action :=
  | ActClear                       (* onClick={onClear} *)
  | ActTogglePasswordVisibility.   (* onClick={togglePasswordVisibility} *)

Record Button := {
  btn_aria_label : option string;
  btn_disabled : bool;
  btn_onClick : Action;
}.

(** A rendered [<p id=...>text</p>]. *)
Record Paragraph := {
  p_id : string;
  p_text : string;
}.

(** The rendered tree, element by element.  For the [input] element the
    attributes are the ones the component writes itself; the spread that
    follows them is applied by [InputFieldSpread.input_attributes]. *)
Record View := {
  v_label : option (string * string);      (* htmlFor, text *)
  v_spinner : bool;
  v_input_id : string;
  v_input_type : string;
  v_input_placeholder : option string;
  v_input_disabled : bool;
  v_input_value : option string;
  v_aria_invalid : bool;
  v_aria_describedby : option string;
  v_clear_button : option Button;
  v_password_toggle : option Button;
  v_helper : option Paragraph;
  v_error : option Paragraph;
}.

(** [id ?? generatedId] (line 41). *)
Definition inputId (p : InputFieldProps) (h : Hooks) : string :=
  match id p with
  | Some i => i
  | None => generatedId h
  end.

(** Line 77. *)
Definition currentType (p : InputFieldProps) (h : Hooks) : string :=
  if String.eqb (type_ p) "password" && isPasswordVisible h
  then "text" else type_ p.

(** Line 78. *)
Definition describedById (p : InputFieldProps) (h : Hooks) : option string :=
  if invalid p && truthy (errorMessage p) then Some (inputId p h ++ "-error")
  else if truthy (helperText p) then Some (inputId p h ++ "-help")
  else None.

(** [cond && <element>]: the element when the condition is truthy. *)
Definition when {A} (c : bool) (x : A) : option A :=
  if c then Some x else None.

(** The text of an optional string prop that has passed a truthiness test. *)
Definition text_of (s : option string) : string := default EmptyString s.

(** Lines 80-185. *)
Definition render (p : InputFieldProps) (h : Hooks) : View := {|
  v_label := when (truthy (label p)) (inputId p h, text_of (label p));
  v_spinner := loading p;
  v_input_id := inputId p h;
  v_input_type := currentType p h;
  v_input_placeholder := placeholder p;
  v_input_disabled := disabled p || loading p;
  v_input_value := value p;
  v_aria_invalid := invalid p;
  v_aria_describedby := describedById p h;
  v_clear_button :=
    when (showClearButton p && truthy (value p) && negb (disabled p))
      {| btn_aria_label := Some "Clear input";
         btn_disabled := false;
         btn_onClick := ActClear |};
  v_password_toggle :=
    when (String.eqb (type_ p) "password")
      {| btn_aria_label :=
           Some (if isPasswordVisible h then "Hide password" else "Show password");
         btn_disabled := disabled p || loading p;
         btn_onClick := ActTogglePasswordVisibility |};
  v_helper :=
    when (truthy (helperText p) && negb (invalid p))
      {| p_id := inputId p h ++ "-help"; p_text := text_of (helperText p) |};
  v_error :=
    when (truthy (errorMessage p) && invalid p)
      {| p_id := inputId p h ++ "-error"; p_text := text_of (errorMessage p) |};
|}.

(** Line 75. *)
Definition togglePasswordVisibility (h : Hooks) : Hooks :=
  {| isPasswordVisible := negb (isPasswordVisible h);
     generatedId := generatedId h |}.

(** Running the handler a button is bound to: the new hook state and the
    caller callbacks invoked.  [onClear] is called only when supplied. *)
Definition run_action (p : InputFieldProps) (h : Hooks) (a : Action)
  : Hooks * list Callback :=
  match a with
  | ActClear => (h, if onClear p then [CallOnClear] else [])
  | ActTogglePasswordVisibility => (togglePasswordVisibility h, [])
  end.

(** Activating a rendered button; a disabled button does not fire. *)
Definition activate (p : InputFieldProps) (h : Hooks) (b : Button)
  : Hooks * list Callback :=
  if btn_disabled b then (h, []) else run_action p h (btn_onClick b).

(** The identifiers of the description paragraphs present in a view. *)
Definition rendered_description_ids (v : View) : list string :=
  (p_id <$> option_list (v_helper v)) ++ (p_id <$> option_list (v_error v)).

End InputField.

(** ** Comparators and sorting algorithms *)
Module Sorting.

(** A consistent comparator for the values of [l], as ECMAScript defines
    it for [Array.prototype.sort]: [=] (a result of zero) is reflexive,
    symmetric and transitive, [<] (a negative result) and [>] (a positive
    one) are transitive. *)
Record consistent {A} (cmp : A → A → Z) (l : list A) : Prop := {
  cf_refl a : a ∈ l → cmp a a = 0;
  cf_sym a b : a ∈ l → b ∈ l → cmp a b = 0 → cmp b a = 0;
  cf_eq_trans a b c :
    a ∈ l → b ∈ l → c ∈ l → cmp a b = 0 → cmp b c = 0 → cmp a c = 0;
  cf_lt_trans a b c :
    a ∈ l → b ∈ l → c ∈ l → cmp a b < 0 → cmp b c < 0 → cmp a c < 0;
  cf_gt_trans a b c :
    a ∈ l → b ∈ l → c ∈ l → 0 < cmp a b → 0 < cmp b c → 0 < cmp a c;
}.

(** Insertion sort with a comparator, in two flavours: an element is
    placed before the elements it ties with ([ties_after = false], which
    keeps the input order of ties when the list is built from the right)
    or after them ([ties_after = true], which reverses it). *)
Fixpoint insert_sorted {A} (ties_after : bool) (cmp : A → A → Z)
    (x : A) (l : list A) : list A :=
  match l with
  | [] => [x]
  | y :: l' =>
      if (if ties_after then 0 <=? cmp x y else 0 <? cmp x y)
      then y :: insert_sorted ties_after cmp x l'
      else x :: l
  end.

Definition insertion_sort {A} (ties_after : bool) (cmp : A → A → Z)
    (l : list A) : list A :=
  foldr (insert_sorted ties_after cmp) [] l.

(** A stable sort, as the specification words it: rows are ordered by the
    comparison alone and rows that compare equal keep their order. *)
Definition stable_sort {A} (cmp : A → A → Z) (l : list A) : list A :=
  insertion_sort false cmp l.

End Sorting.

(** ** DataTable.tsx *)
Module DataTable.

(** [React.Key]: a number or a string.  A JavaScript [Set] compares keys
    by value within a type, and a number never equals a string. *)
Inductive Key :=
  | KNum (n : Z)
  | KStr (s : string).

#[global] Instance Key_eq_dec : EqDecision Key.
Proof. solve_decision. Defined.

#[global] Instance Key_countable : Countable Key.
Proof.
  refine (inj_countable'
            (λ k, match k with KNum n => inl n | KStr s => inr s end)
            (λ x, match x with inl n => KNum n | inr s => KStr s end) _).
  by intros [].
Defined.

Inductive Direction :=
  | ascending
  | descending.

#[global] Instance Direction_eq_dec : EqDecision Direction.
Proof. solve_decision. Defined.

(** The row type [T extends { id: React.Key }] with its field names
    [K = keyof T] and field values [V = T[keyof T]].  [js_lt] is the
    [<] of the language on field values; [a > b] is [js_lt b a]. *)
Class RowType (T K V : Type) := {
  row_id : T → Key;
  get_field : T → K → V;
  js_lt : V → V → bool;
  #[global] field_name_eq_dec :: EqDecision K;
}.

(** [Array.prototype.sort] of the host engine, called with a comparator.
    Which algorithm runs is the engine's choice. *)
Class ArraySort := array_sort : ∀ A : Type, (A → A → Z) → list A → list A.
#[global] Arguments array_sort {_ _} _ _.

(** What ECMAScript promises of [sort]: the result holds the elements of
    the array, and when the comparator is consistent for them no element
    is placed after one it compares less than.  Nothing is promised about
    the order of elements that compare equal. *)
Class ArraySortSpec `{!ArraySort} : Prop := {
  array_sort_perm A (cmp : A → A → Z) (l : list A) :
    array_sort cmp l ≡ₚ l;
  array_sort_sorted A (cmp : A → A → Z) (l : list A) :
    Sorting.consistent cmp l →
    StronglySorted (λ a b, cmp a b ≤ 0) (array_sort cmp l);
}.

Section Component.
Context {T K V : Type} `{!RowType T K V} `{!ArraySort}.

(** [Column<T>] (lines 4-10); an omitted [sortable] is [false]. *)
Record Column := {
  key : string;
  title : string;
  dataIndex : K;
  sortable : bool;
  sorter : option (T → T → Z);
}.

(** [DataTableProps<T>] (lines 12-21).  An array is an object: [data_ref]
    is its identity, [data] its contents.  [onRowSelect] records whether
    the callback is supplied. *)
Record DataTableProps := {
  data_ref : nat;
  data : list T;
  columns : list Column;
  loading : bool;
  selectable : bool;
  onRowSelect : bool;
  emptyMessage : option string;
  loadingMessage : option string;
}.

(** [SortConfig<T>] without its [null] (lines 23-26). *)
Record SortConfig := {
  sc_key : K;
  sc_direction : Direction;
}.

(** The component instance: the two [useState] cells, the DOM node behind
    [selectAllRef], and the dependency arrays React remembers for the two
    effects.

    - [selectedRowIds_ref] is the identity of the [Set] object held in
      state; every [new Set(...)] gets a fresh one.
    - [selectAllRef] is [ref.current]: [None] for [null], [Some b] for a
      mounted header checkbox whose [indeterminate] property is [b].
    - [indeterminate_deps] and [clear_deps] are the dependencies seen at
      the previous render, [None] before the first one. *)
Record Hooks := {
  sortConfig : option SortConfig;
  selectedRowIds : gset Key;
  selectedRowIds_ref : nat;
  selectAllRef : option bool;
  indeterminate_deps : option (nat * nat);
  clear_deps : option nat;
}.

Definition initial_hooks : Hooks := {|
  sortConfig := None;
  selectedRowIds := ∅;
  selectedRowIds_ref := 0;
  selectAllRef := None;
  indeterminate_deps := None;
  clear_deps := None;
|}.

(** *** Sorting (lines 56-82) *)

(** [.map((item, idx) => ({ item, idx }))] *)
Definition decorate (l : list T) : list (T * Z) :=
  imap (λ idx item, (item, Z.of_nat idx)) l.

(** [columns.find((c) => c.dataIndex === key)] *)
Definition find_column (cols : list Column) (k : K) : option Column :=
  List.find (λ c, bool_decide (dataIndex c = k)) cols.

(** The [else] branch of the comparator (lines 70-74). *)
Definition default_cmp (k : K) (a b : T) : Z :=
  let aValue := get_field a k in
  let bValue := get_field b k in
  if js_lt aValue bValue then -1
  else if js_lt bValue aValue then 1
  else 0.

(** [cmp] as computed on lines 66-75: the column's [sorter] when the
    column was found and has one, the default comparison otherwise. *)
Definition primary_cmp (col : option Column) (k : K) (a b : T) : Z :=
  match col ≫= sorter with
  | Some f => f a b
  | None => default_cmp k a b
  end.

Definition multiplier (d : Direction) : Z :=
  match d with
  | ascending => 1
  | descending => -1
  end.

(** The comparator handed to [.sort] (lines 65-78). *)
Definition sort_cmp (col : option Column) (k : K) (d : Direction)
    (a b : T * Z) : Z :=
  let cmp := primary_cmp col k a.1 b.1 in
  if bool_decide (cmp ≠ 0) then cmp * multiplier d
  else a.2 - b.2.

(** The memoised [sortedData], a function of its dependencies
    [data], [sortConfig] and [columns]. *)
Definition sortedData (dat : list T) (cfg : option SortConfig)
    (cols : list Column) : list T :=
  match cfg with
  | Some c =>
      let col := find_column cols (sc_key c) in
      (array_sort (sort_cmp col (sc_key c) (sc_direction c)) (decorate dat)).*1
  | None => dat
  end.

(** The comparison of two rows in the direction of the sort. *)
Definition directed_cmp (col : option Column) (k : K) (d : Direction)
    (a b : T) : Z :=
  primary_cmp col k a b * multiplier d.

(** The order the comparator describes on decorated rows: by the directed
    comparison, and by original index among rows that compare equal. *)
Definition comes_before (col : option Column) (k : K) (d : Direction)
    (x y : T * Z) : Prop :=
  directed_cmp col k d x.1 y.1 < 0 ∨
  (primary_cmp col k x.1 y.1 = 0 ∧ x.2 < y.2).

(** *** Handlers (lines 84-105) *)

(** The updater passed to [setSortConfig]. *)
Definition requestSort (k : K) (prev : option SortConfig) : option SortConfig :=
  match prev with
  | Some c =>
      if bool_decide (sc_key c = k) && bool_decide (sc_direction c = ascending)
      then Some {| sc_key := k; sc_direction := descending |}
      else Some {| sc_key := k; sc_direction := ascending |}
  | None => Some {| sc_key := k; sc_direction := ascending |}
  end.

(** [data.filter((row) => newSelectedRowIds.has(row.id))] *)
Definition selected_rows (dat : list T) (sel : gset Key) : list T :=
  filter (λ row, row_id row ∈ sel) dat.

(** The new selection set and the argument of [onRowSelect]. *)
Definition handleSelectAll (dat : list T) (checked : bool)
  : gset Key * list T :=
  let newSelectedRowIds : gset Key :=
    if checked then list_to_set (row_id <$> dat) else ∅ in
  (newSelectedRowIds, selected_rows dat newSelectedRowIds).

Definition handleSelectRow (dat : list T) (sel : gset Key) (i : Key)
    (checked : bool) : gset Key * list T :=
  let newSelectedRowIds : gset Key :=
    if checked then {[ i ]} ∪ sel else sel ∖ {[ i ]} in
  (newSelectedRowIds, selected_rows dat newSelectedRowIds).

(** *** The rendered tree (lines 107-224) *)

Inductive AriaSort :=
  | SortAscending
  | SortDescending
  | SortNone.

(** A header cell: its title, its [aria-sort] attribute ([None] when the
    column is not sortable), whether the title is a sort button, and the
    arrow shown beside it. *)
Record HeaderCell := {
  th_title : string;
  th_aria_sort : option AriaSort;
  th_button : bool;
  th_arrow : option Direction;
}.

(** A body row: the row object, whether it is highlighted, the [checked]
    attribute of its checkbox ([None] without selection) and its cells. *)
Record BodyRow := {
  tr_row : T;
  tr_highlight : bool;
  tr_checkbox : option bool;
  tr_cells : list V;
}.

(** The three render states; a message is [None] for the default markup.
    [VTable] carries the [checked] attribute of the header checkbox
    ([None] without selection), the header cells and the body rows. *)
Inductive View :=
  | VLoading (message : option string)
  | VEmpty (message : option string)
  | VTable (select_all : option bool) (head : list HeaderCell)
           (body : list BodyRow).

(** [sortConfig?.key === col.dataIndex] (line 154). *)
Definition isSorted (cfg : option SortConfig) (col : Column) : bool :=
  match cfg with
  | Some c => bool_decide (sc_key c = dataIndex col)
  | None => false
  end.

(** Lines 153-188.  The direction is read only when [isSorted] holds, and
    then a configuration is present. *)
Definition header_cell (cfg : option SortConfig) (col : Column) : HeaderCell :=
  let dir := default ascending (sc_direction <$> cfg) in
  {| th_title := title col;
     th_aria_sort :=
       if sortable col then
         Some (if isSorted cfg col
               then match dir with
                    | ascending => SortAscending
                    | descending => SortDescending
                    end
               else SortNone)
       else None;
     th_button := sortable col;
     th_arrow :=
       if sortable col && isSorted cfg col then Some dir else None |}.

(** Line 148. *)
Definition select_all_checked (sel : gset Key) (dat : list T) : bool :=
  bool_decide (size sel = length dat) && bool_decide (0 < length dat)%nat.

(** Lines 46-47. *)
Definition select_all_indeterminate (sel : gset Key) (dat : list T) : bool :=
  bool_decide (0 < size sel)%nat && bool_decide (size sel < length dat)%nat.

(** Lines 192-220. *)
Definition body_row (p : DataTableProps) (h : Hooks) (row : T) : BodyRow :=
  {| tr_row := row;
     tr_highlight := bool_decide (row_id row ∈ selectedRowIds h);
     tr_checkbox :=
       if selectable p
       then Some (bool_decide (row_id row ∈ selectedRowIds h))
       else None;
     tr_cells := (λ col, get_field row (dataIndex col)) <$> columns p |}.

Definition is_nil {A} (l : list A) : bool :=
  match l with
  | [] => true
  | _ :: _ => false
  end.

(** The value the component function returns. *)
Definition render (p : DataTableProps) (h : Hooks) : View :=
  if loading p then
    VLoading (if truthy (loadingMessage p) then loadingMessage p else None)
  else if is_nil (data p) then
    VEmpty (if truthy (emptyMessage p) then emptyMessage p else None)
  else
    VTable
      (if selectable p
       then Some (select_all_checked (selectedRowIds h) (data p))
       else None)
      (header_cell (sortConfig h) <$> columns p)
      (body_row p h <$> sortedData (data p) (sortConfig h) (columns p)).

(** Whether the returned tree contains the header checkbox. *)
Definition select_all_rendered (p : DataTableProps) : bool :=
  negb (loading p) && negb (is_nil (data p)) && selectable p.

(** *** Hook state updates *)

Definition set_sortConfig (c : option SortConfig) (h : Hooks) : Hooks :=
  {| sortConfig := c;
     selectedRowIds := selectedRowIds h;
     selectedRowIds_ref := selectedRowIds_ref h;
     selectAllRef := selectAllRef h;
     indeterminate_deps := indeterminate_deps h;
     clear_deps := clear_deps h |}.

(** [setSelectedRowIds(s)] with a freshly built [Set]. *)
Definition set_selectedRowIds (s : gset Key) (h : Hooks) : Hooks :=
  {| sortConfig := sortConfig h;
     selectedRowIds := s;
     selectedRowIds_ref := S (selectedRowIds_ref h);
     selectAllRef := selectAllRef h;
     indeterminate_deps := indeterminate_deps h;
     clear_deps := clear_deps h |}.

Definition set_selectAllRef (r : option bool) (h : Hooks) : Hooks :=
  {| sortConfig := sortConfig h;
     selectedRowIds := selectedRowIds h;
     selectedRowIds_ref := selectedRowIds_ref h;
     selectAllRef := r;
     indeterminate_deps := indeterminate_deps h;
     clear_deps := clear_deps h |}.

Definition set_indeterminate_deps (d : option (nat * nat)) (h : Hooks) : Hooks :=
  {| sortConfig := sortConfig h;
     selectedRowIds := selectedRowIds h;
     selectedRowIds_ref := selectedRowIds_ref h;
     selectAllRef := selectAllRef h;
     indeterminate_deps := d;
     clear_deps := clear_deps h |}.

Definition set_clear_deps (d : option nat) (h : Hooks) : Hooks :=
  {| sortConfig := sortConfig h;
     selectedRowIds := selectedRowIds h;
     selectedRowIds_ref := selectedRowIds_ref h;
     selectAllRef := selectAllRef h;
     indeterminate_deps := indeterminate_deps h;
     clear_deps := d |}.

(** *** Commit and effects *)

(** Committing a render attaches the ref: a checkbox that stays mounted
    keeps its DOM node and with it the [indeterminate] property; a newly
    mounted one starts with [indeterminate = false]; without a checkbox
    in the tree [ref.current] is [null]. *)
Definition commit (p : DataTableProps) (h : Hooks) : Hooks :=
  set_selectAllRef
    (if select_all_rendered p
     then Some (default false (selectAllRef h))
     else None)
    h.

(** The first effect (lines 44-49), run when [selectedRowIds] or [data]
    differs from the previous render. *)
Definition indeterminate_effect (p : DataTableProps) (h : Hooks) : Hooks :=
  let deps := Some (selectedRowIds_ref h, data_ref p) in
  if bool_decide (indeterminate_deps h = deps) then h
  else
    set_indeterminate_deps deps
      (set_selectAllRef
         ((λ _, select_all_indeterminate (selectedRowIds h) (data p))
            <$> selectAllRef h)
         h).

(** The second effect (lines 51-54), run when [data] differs from the
    previous render.  The flag tells whether state was set. *)
Definition clear_effect (p : DataTableProps) (h : Hooks) : Hooks * bool :=
  let deps := Some (data_ref p) in
  if bool_decide (clear_deps h = deps) then (h, false)
  else (set_clear_deps deps (set_selectedRowIds ∅ h), true).

(** *** The component as a transition system *)

Inductive Stage :=
  | NeedsRender      (* props or state changed, the function has not run yet *)
  | EffectsPending   (* rendered and committed, effects not yet run *)
  | Idle.            (* effects have run, nothing is scheduled *)

#[global] Instance Stage_eq_dec : EqDecision Stage.
Proof. solve_decision. Defined.

(** [calls] logs the arguments of [onRowSelect], latest first. *)
Record State := {
  props : DataTableProps;
  hooks : Hooks;
  stage : Stage;
  calls : list (list T);
}.

Inductive Event :=
  | ParentRender (p : DataTableProps)     (* the caller passes new props *)
  | Render                                (* the function runs, the tree is committed *)
  | RunEffects                            (* the effects of that render run *)
  | ClickHeader (col : nat)               (* the button of the col-th header cell *)
  | ChangeSelectAll (checked : bool)      (* the header checkbox *)
  | ChangeSelectRow (row : nat) (checked : bool).  (* the checkbox of the row-th body row *)

Definition mount (p : DataTableProps) : State :=
  {| props := p; hooks := initial_hooks; stage := NeedsRender; calls := [] |}.

(** The table, rather than the loading or the empty placeholder, is
    what the last render returned. *)
Definition table_rendered (p : DataTableProps) : bool :=
  negb (loading p) && negb (is_nil (data p)).

Definition with_hooks (s : State) (h : Hooks) (st : Stage) : State :=
  {| props := props s; hooks := h; stage := st; calls := calls s |}.

(** [onRowSelect?.(rows)] followed by the re-render the state update
    schedules. *)
Definition after_selection (s : State) (r : gset Key * list T) : State :=
  {| props := props s;
     hooks := set_selectedRowIds r.1 (hooks s);
     stage := NeedsRender;
     calls := if onRowSelect (props s) then r.2 :: calls s else calls s |}.

(** One transition; [None] when the event cannot happen in the state.
    User events reach a handler only through an element of the tree the
    last render returned, and React runs pending renders and effects
    before it delivers the next event, so handlers run in [Idle]; the
    caller's next props are likewise taken once nothing is pending.  The
    [checked] an event carries is the state the browser gave the checkbox;
    any value is allowed here. *)
Definition step (s : State) (e : Event) : option State :=
  let p := props s in
  let h := hooks s in
  match e, stage s with
  | ParentRender p', Idle =>
      Some {| props := p'; hooks := h; stage := NeedsRender; calls := calls s |}
  | Render, NeedsRender =>
      Some (with_hooks s (commit p h) EffectsPending)
  | RunEffects, EffectsPending =>
      let r := clear_effect p (indeterminate_effect p h) in
      Some (with_hooks s r.1 (if r.2 then NeedsRender else Idle))
  | ClickHeader i, Idle =>
      if table_rendered p then
        col ← columns p !! i;
        if sortable col
        then Some (with_hooks s
                     (set_sortConfig (requestSort (dataIndex col) (sortConfig h)) h)
                     NeedsRender)
        else None
      else None
  | ChangeSelectAll checked, Idle =>
      if select_all_rendered p
      then Some (after_selection s (handleSelectAll (data p) checked))
      else None
  | ChangeSelectRow i checked, Idle =>
      if select_all_rendered p then
        row ← sortedData (data p) (sortConfig h) (columns p) !! i;
        Some (after_selection s
                (handleSelectRow (data p) (selectedRowIds h) (row_id row) checked))
      else None
  | _, _ => None
  end.

Fixpoint run (s : State) (es : list Event) : option State :=
  match es with
  | [] => Some s
  | e :: es' => s' ← step s e; run s' es'
  end.

(** Props are immutable values: an array the caller passes again, the
    same object, still has the contents it had. *)
Definition respects_immutability (s : State) (e : Event) : Prop :=
  match e with
  | ParentRender p' => data_ref p' = data_ref (props s) → data p' = data (props s)
  | _ => True
  end.

(** The states of a mounted instance. *)
Inductive reachable : State → Prop :=
  | reachable_mount p : reachable (mount p)
  | reachable_step s e s' :
      reachable s → respects_immutability s e → step s e = Some s' →
      reachable s'.

(** The identifiers of a row collection. *)
Definition row_ids (dat : list T) : gset Key := list_to_set (row_id <$> dat).

(** Immutability along a run. *)
Fixpoint run_respects_immutability (s : State) (es : list Event) : Prop :=
  match es with
  | [] => True
  | e :: es' =>
      respects_immutability s e ∧
      match step s e with
      | Some s' => run_respects_immutability s' es'
      | None => True
      end
  end.

(** The two events that change the selection set. *)
Definition is_selection_change (e : Event) : bool :=
  match e with
  | ChangeSelectAll _ | ChangeSelectRow _ _ => true
  | _ => false
  end.


End Component.
End DataTable.

(** ** Two engines *)
Module Engines.

(** An engine whose [sort] is not stable: it reverses ties. *)
Definition tie_reversing : DataTable.ArraySort :=
  λ A cmp l, Sorting.insertion_sort true cmp l.

(** An engine whose [sort] is stable. *)
Definition stable : DataTable.ArraySort :=
  λ A cmp l, Sorting.insertion_sort false cmp l.

End Engines.

(** ** A concrete row type

    The rows of the specification's end-to-end example,
    [{ id: number, age: number }]. *)
Module UserRows.
Import DataTable.

Record UserData := {
  id : Z;
  age : Z;
}.

Inductive Field :=
  | f_id
  | f_age.

#[global] Instance Field_eq_dec : EqDecision Field.
Proof. solve_decision. Defined.

Definition field_of (r : UserData) (k : Field) : Z :=
  match k with
  | f_id => id r
  | f_age => age r
  end.

#[global] Instance UserData_row : RowType UserData Field Z := {|
  row_id r := KNum (id r);
  get_field := field_of;
  js_lt := Z.ltb;
|}.

Definition user (i a : Z) : UserData := {| id := i; age := a |}.

Definition age_column : Column (T:=UserData) (K:=Field) := {|
  key := "age";
  title := "Age";
  dataIndex := f_age;
  sortable := true;
  sorter := None;
|}.

Definition id_column : Column (T:=UserData) (K:=Field) := {|
  key := "id";
  title := "Id";
  dataIndex := f_id;
  sortable := true;
  sorter := None;
|}.

(** A column with a comparator of its own: by decade of age. *)
Definition decade_column : Column (T:=UserData) (K:=Field) := {|
  key := "decade";
  title := "Decade";
  dataIndex := f_age;
  sortable := true;
  sorter := Some (λ a b, age a / 10 - age b / 10);
|}.

(** A selectable table over the given array. *)
Definition table (ref : nat) (rows : list UserData) (busy : bool)
  : DataTableProps (T:=UserData) (K:=Field) := {|
  data_ref := ref;
  data := rows;
  columns := [id_column; age_column];
  loading := busy;
  selectable := true;
  onRowSelect := true;
  emptyMessage := None;
  loadingMessage := None;
|}.

Definition three_rows : list UserData := [user 1 32; user 2 28; user 3 45].

Definition rows_with_ties : list UserData :=
  [user 1 32; user 2 28; user 3 45; user 4 28; user 5 32].

(** A selectable table of three rows, just mounted. *)
Definition start : State (T:=UserData) (K:=Field) :=
  mount (table 0 three_rows false).

(** Traces from [start].  Mounting takes two renders: the clearing effect
    of the first sets state. *)
Definition mounting : list (Event (T:=UserData) (K:=Field)) :=
  [Render; RunEffects; Render; RunEffects].

(** The state a trace from [start] ends in ([start] itself when an event
    of the trace cannot happen). *)
Definition after `{!ArraySort} (es : list (Event (T:=UserData) (K:=Field)))
  : State (T:=UserData) (K:=Field) :=
  default start (run start es).

(** The user ticks the checkbox of the first row. *)
Definition tick_first_row : list (Event (T:=UserData) (K:=Field)) :=
  [ChangeSelectRow 0 true; Render; RunEffects].

(** The caller sets [loading] and unsets it again, passing the same array. *)
Definition loading_on_and_off : list (Event (T:=UserData) (K:=Field)) :=
  [ParentRender (table 0 three_rows true); Render; RunEffects;
   ParentRender (table 0 three_rows false); Render; RunEffects].

(** The caller passes another array; the component renders it. *)
Definition another_array : list (Event (T:=UserData) (K:=Field)) :=
  [ParentRender (table 1 [user 7 20] false); Render].

End UserRows.

(** ** The attributes handed through to the input (line 131)

    [{...props}] stands after [aria-invalid] and [aria-describedby] in the
    attribute list of the [input], so a key of that name among the
    caller's remaining props replaces what the component computed, also
    when its value is [undefined].  The other attributes the component
    writes ([id], [type], [className], [placeholder], [disabled], [value],
    [onChange]) are destructured out of the props and cannot be among the
    remaining ones. *)
Module InputFieldSpread.
Import InputField.

(** The values [aria-invalid] accepts. *)
Inductive AriaInvalid :=
  | InvalidFlag (b : bool)
  | InvalidToken (token : string).   (* 'grammar', 'spelling', 'true', 'false' *)

(** The two keys of the remaining props that meet an attribute of the
    component: [None] when the caller did not pass the key, [Some v] when
    it did, [v] being [None] for [undefined]. *)
Record PassThrough := {
  pt_aria_invalid : option (option AriaInvalid);
  pt_aria_describedby : option (option string);
}.

(** The remaining props of a caller that passes neither key. *)
Definition nothing_passed : PassThrough :=
  {| pt_aria_invalid := None; pt_aria_describedby := None |}.

(** The two attributes as the [input] element ends up with them. *)
Record InputAttributes := {
  attr_aria_invalid : option AriaInvalid;
  attr_aria_describedby : option string;
}.

Definition input_attributes (rest : PassThrough) (p : InputFieldProps)
    (h : Hooks) : InputAttributes :=
  {| attr_aria_invalid :=
       match pt_aria_invalid rest with
       | Some given => given
       | None => Some (InvalidFlag (v_aria_invalid (render p h)))
       end;
     attr_aria_describedby :=
       match pt_aria_describedby rest with
       | Some given => given
       | None => v_aria_describedby (render p h)
       end |}.

End InputFieldSpread.

(** ** An engine that sorts by binary insertion

    The way TimSort treats a short array: the run the array starts with is
    taken as it is (reversed when it strictly descends), and every later
    element is put into it at the place a binary search finds.  A binary
    search compares the new element with few of the elements already
    placed. *)
Module BinarySort.

(** The place for [pivot] in [l]: compare with the middle element, go on
    in the left half when [pivot] compares less, in the right half
    otherwise.  [fuel] bounds the number of halvings. *)
Fixpoint search {A} (fuel : nat) (cmp : A → A → Z) (pivot : A)
    (l : list A) : nat :=
  match fuel with
  | O => O
  | S fuel' =>
      let mid := (length l / 2)%nat in
      match l !! mid with
      | None => O
      | Some y =>
          if cmp pivot y <? 0
          then search fuel' cmp pivot (take mid l)
          else (S mid + search fuel' cmp pivot (drop (S mid) l))%nat
      end
  end.

Definition insert {A} (cmp : A → A → Z) (pivot : A) (l : list A) : list A :=
  let pos := search (length l) cmp pivot l in
  take pos l ++ pivot :: drop pos l.

(** The longest prefix of [l] in which every element compares greater
    than or equal to the one before it ([prev] at first), and the rest. *)
Fixpoint ascending_run {A} (cmp : A → A → Z) (prev : A) (l : list A)
  : list A * list A :=
  match l with
  | [] => ([], [])
  | x :: l' =>
      if 0 <=? cmp x prev
      then let r := ascending_run cmp x l' in (x :: r.1, r.2)
      else ([], l)
  end.

(** The same for a run in which every element compares less than the one
    before it. *)
Fixpoint descending_run {A} (cmp : A → A → Z) (prev : A) (l : list A)
  : list A * list A :=
  match l with
  | [] => ([], [])
  | x :: l' =>
      if cmp x prev <? 0
      then let r := descending_run cmp x l' in (x :: r.1, r.2)
      else ([], l)
  end.

(** The first run, made ascending, and what follows it. *)
Definition first_run {A} (cmp : A → A → Z) (l : list A) : list A * list A :=
  match l with
  | [] => ([], [])
  | x :: l' =>
      match l' with
      | y :: _ =>
          if cmp y x <? 0
          then let r := descending_run cmp x l' in (reverse (x :: r.1), r.2)
          else let r := ascending_run cmp x l' in (x :: r.1, r.2)
      | [] => ([x], [])
      end
  end.

Definition sort {A} (cmp : A → A → Z) (l : list A) : list A :=
  let r := first_run cmp l in
  foldl (λ sorted pivot, insert cmp pivot sorted) r.1 r.2.

Definition engine : DataTable.ArraySort := λ A cmp l, sort cmp l.

End BinarySort.

(** ** Rows with a field that may be missing

    [{ id: number, age?: number }].  A missing [age] reads as
    [undefined], and [<] is false whenever an operand is [undefined]. *)
Module SparseRows.
Import DataTable.

Record Person := {
  id : Z;
  age : option Z;
}.

Inductive Field :=
  | f_id
  | f_age.

#[global] Instance Field_eq_dec : EqDecision Field.
Proof. solve_decision. Defined.

Definition field_of (r : Person) (k : Field) : option Z :=
  match k with
  | f_id => Some (id r)
  | f_age => age r
  end.

Definition lt_or_undefined (a b : option Z) : bool :=
  match a, b with
  | Some x, Some y => x <? y
  | _, _ => false
  end.

#[global] Instance Person_row : RowType Person Field (option Z) := {|
  row_id r := KNum (id r);
  get_field := field_of;
  js_lt := lt_or_undefined;
|}.

Definition person (i : Z) (a : option Z) : Person := {| id := i; age := a |}.

Definition age_column : Column (T:=Person) (K:=Field) := {|
  key := "age";
  title := "Age";
  dataIndex := f_age;
  sortable := true;
  sorter := None;
|}.

(** Seven rows, the fourth without an age, the fifth and the seventh of
    the same age. *)
Definition seven_rows : list Person :=
  [person 1 (Some 1); person 2 (Some 2); person 3 (Some 9); person 4 None;
   person 5 (Some 5); person 6 (Some 0); person 7 (Some 5)].

End SparseRows.

(** * Properties of InputField *)
Module InputFieldFacts.
Import InputField.

Lemma when_is_Some {A} (c : bool) (x : A) : is_Some (when c x) ↔ c = true.
Proof.
  destruct c; simpl; split; intros Hc; try done.
Qed.

Lemma when_Some {A} (c : bool) (x y : A) : when c x = Some y → c = true ∧ y = x.
Proof. destruct c; simpl; intros Hc; by simplify_eq. Qed.

(** The description the input points at is in the tree, unless the field
    is invalid, has no error message and has a helper text. *)
Lemma describedby_rendered_iff (p : InputFieldProps) (h : Hooks) :
  (∀ i, v_aria_describedby (render p h) = Some i →
        i ∈ rendered_description_ids (render p h))
  ↔ ¬ (invalid p = true ∧ truthy (errorMessage p) = false ∧
       truthy (helperText p) = true).
Proof.
  unfold rendered_description_ids, render, describedById; simpl.
  destruct (invalid p), (truthy (errorMessage p)), (truthy (helperText p));
    simpl; split; try (intros _ i Hi; simplify_eq; set_solver);
    try (intros _ [? [? ?]]; done); try done.
  - intros Hall _. specialize (Hall _ eq_refl). by apply elem_of_nil in Hall.
  - intros Hno. by destruct Hno.
Qed.

(** C1, at the input where the code departs from it: the field is invalid,
    no error message is supplied and a helper text is.  The input's
    [aria-describedby] is then the helper paragraph's identifier although
    neither the helper nor the error paragraph is in the tree. *)
Theorem describedby_dangling_when_invalid_without_error :
  let p := {| label := Some "Email"; placeholder := None;
              helperText := Some "We never share it"; errorMessage := None;
              disabled := false; invalid := true; loading := false;
              type_ := "text"; value := Some "a@b"; onChange := true;
              onClear := false; showClearButton := false;
              id := Some "email" |} in
  let h := {| isPasswordVisible := false; generatedId := ":r0:" |} in
  v_aria_describedby (render p h) = Some "email-help" ∧
  v_helper (render p h) = None ∧
  v_error (render p h) = None ∧
  rendered_description_ids (render p h) = [].
Proof. by vm_compute. Qed.

(** C7: the clear button is in the tree exactly when [showClearButton] is
    set, the value is a non-empty string and [disabled] is not set; it is
    enabled, and activating it calls [onClear] (when the caller supplied
    it) and nothing else: the hook state, and so everything rendered,
    the displayed value included, is what it was. *)
Theorem clear_button_rendered_iff (p : InputFieldProps) (h : Hooks) :
  (is_Some (v_clear_button (render p h)) ↔
     showClearButton p = true ∧ truthy (value p) = true ∧ disabled p = false) ∧
  (∀ b, v_clear_button (render p h) = Some b →
     activate p h b = (h, if onClear p then [CallOnClear] else []) ∧
     render p (activate p h b).1 = render p h ∧
     v_input_value (render p (activate p h b).1) = value p).
Proof.
  split.
  - simpl. rewrite when_is_Some, !andb_true_iff, negb_true_iff. tauto.
  - simpl. intros b [_ ->]%when_Some. done.
Qed.

(** C8 as stated fails: with [invalid] set, no error message and a helper
    text, no error text is shown, and the helper text, although supplied,
    is not shown either. *)
Lemma helper_hidden_when_invalid_without_error :
  ¬ (∀ (p : InputFieldProps) (h : Hooks),
       (is_Some (v_error (render p h)) ↔
          invalid p = true ∧ truthy (errorMessage p) = true) ∧
       (¬ (invalid p = true ∧ truthy (errorMessage p) = true) →
          (is_Some (v_helper (render p h)) ↔ truthy (helperText p) = true))).
Proof.
  intros Hall.
  destruct (Hall {| label := None; placeholder := None;
                    helperText := Some "hint"; errorMessage := None;
                    disabled := false; invalid := true; loading := false;
                    type_ := "text"; value := None; onChange := false;
                    onClear := false; showClearButton := false; id := None |}
                 {| isPasswordVisible := false; generatedId := ":r0:" |})
    as [_ Hhelper].
  simpl in Hhelper.
  assert (Hs : is_Some (@None Paragraph)).
  { apply Hhelper; [intros [_ ?]; done | done]. }
  by destruct Hs.
Qed.

(** C8, amended: the error text is shown exactly when [invalid] is set and
    an error message is supplied; the helper text is shown exactly when
    [invalid] is not set and a helper text is supplied; the two are never
    shown together. *)
Theorem helper_and_error_exclusive (p : InputFieldProps) (h : Hooks) :
  (is_Some (v_error (render p h)) ↔
     invalid p = true ∧ truthy (errorMessage p) = true) ∧
  (is_Some (v_helper (render p h)) ↔
     invalid p = false ∧ truthy (helperText p) = true) ∧
  ¬ (is_Some (v_helper (render p h)) ∧ is_Some (v_error (render p h))).
Proof.
  simpl. rewrite !when_is_Some, !andb_true_iff, negb_true_iff.
  destruct (invalid p); intuition congruence.
Qed.

(** C9: while [loading] is set and [disabled] is not, the input element is
    disabled and so is the password toggle whenever it is in the tree;
    the clear button, with [showClearButton] set and a non-empty value, is
    in the tree with no [disabled] attribute, and activating it calls the
    supplied [onClear]. *)
Theorem clear_button_active_while_loading (p : InputFieldProps) (h : Hooks) :
  loading p = true → disabled p = false →
  v_input_disabled (render p h) = true ∧
  (∀ b, v_password_toggle (render p h) = Some b →
        btn_disabled b = true ∧ activate p h b = (h, [])) ∧
  (showClearButton p = true → truthy (value p) = true →
     ∃ b, v_clear_button (render p h) = Some b ∧ btn_disabled b = false ∧
          (onClear p = true → activate p h b = (h, [CallOnClear]))).
Proof.
  intros Hl Hd. simpl. rewrite Hl, Hd. split_and!.
  - done.
  - intros b [_ ->]%when_Some. done.
  - intros -> ->. eexists. split_and!; [done..|].
    unfold activate; simpl. by intros ->.
Qed.

Lemma clear_button_active_while_loading_witness :
  let p := {| label := None; placeholder := None; helperText := None;
              errorMessage := None; disabled := false; invalid := false;
              loading := true; type_ := "password"; value := Some "secret";
              onChange := true; onClear := true; showClearButton := true;
              id := None |} in
  let h := {| isPasswordVisible := false; generatedId := ":r0:" |} in
  v_input_disabled (render p h) = true ∧
  (∀ b, v_password_toggle (render p h) = Some b →
        btn_disabled b = true ∧ activate p h b = (h, [])) ∧
  (showClearButton p = true → truthy (value p) = true →
     ∃ b, v_clear_button (render p h) = Some b ∧ btn_disabled b = false ∧
          (onClear p = true → activate p h b = (h, [CallOnClear]))).
Proof.
  intros p h. apply (clear_button_active_while_loading p h); reflexivity.
Defined.

End InputFieldFacts.

(** * Properties of comparators and of insertion sort *)
Module SortingFacts.
Import Sorting.

Section Consistent.
Context {A : Type} (cmp : A → A → Z) (l : list A).
Hypothesis Hc : consistent cmp l.

Lemma flip_lt a b : a ∈ l → b ∈ l → cmp a b < 0 → 0 < cmp b a.
Proof.
  intros Ha Hb Hab.
  destruct (Z.lt_trichotomy (cmp b a) 0) as [Hlt | [Heq | Hgt]]; [| | done].
  - pose proof (cf_lt_trans _ _ Hc a b a Ha Hb Ha Hab Hlt).
    pose proof (cf_refl _ _ Hc a Ha). lia.
  - pose proof (cf_sym _ _ Hc b a Hb Ha Heq). lia.
Qed.

Lemma flip_gt a b : a ∈ l → b ∈ l → 0 < cmp a b → cmp b a < 0.
Proof.
  intros Ha Hb Hab.
  destruct (Z.lt_trichotomy (cmp b a) 0) as [Hlt | [Heq | Hgt]]; [done | |].
  - pose proof (cf_sym _ _ Hc b a Hb Ha Heq). lia.
  - pose proof (cf_gt_trans _ _ Hc a b a Ha Hb Ha Hab Hgt).
    pose proof (cf_refl _ _ Hc a Ha). lia.
Qed.

Lemma flip_le a b : a ∈ l → b ∈ l → 0 ≤ cmp a b → cmp b a ≤ 0.
Proof.
  intros Ha Hb Hab.
  destruct (decide (cmp a b = 0)) as [Heq | Hne].
  - rewrite (cf_sym _ _ Hc a b); done.
  - pose proof (flip_gt a b Ha Hb). lia.
Qed.

Lemma lt_eq_trans a b c :
  a ∈ l → b ∈ l → c ∈ l → cmp a b < 0 → cmp b c = 0 → cmp a c < 0.
Proof.
  intros Ha Hb Hc' Hab Hbc.
  destruct (Z.lt_trichotomy (cmp a c) 0) as [Hlt | [Heq | Hgt]]; [done | |].
  - pose proof (cf_sym _ _ Hc a c Ha Hc' Heq) as Hca.
    pose proof (cf_eq_trans _ _ Hc b c a Hb Hc' Ha Hbc Hca) as Hba.
    pose proof (cf_sym _ _ Hc b a Hb Ha Hba). lia.
  - pose proof (flip_gt a c Ha Hc' Hgt) as Hca.
    pose proof (cf_lt_trans _ _ Hc c a b Hc' Ha Hb Hca Hab).
    pose proof (cf_sym _ _ Hc b c Hb Hc' Hbc). lia.
Qed.

Lemma eq_lt_trans a b c :
  a ∈ l → b ∈ l → c ∈ l → cmp a b = 0 → cmp b c < 0 → cmp a c < 0.
Proof.
  intros Ha Hb Hc' Hab Hbc.
  destruct (Z.lt_trichotomy (cmp a c) 0) as [Hlt | [Heq | Hgt]]; [done | |].
  - pose proof (cf_sym _ _ Hc a b Ha Hb Hab) as Hba.
    pose proof (cf_eq_trans _ _ Hc b a c Hb Ha Hc' Hba Heq). lia.
  - pose proof (flip_lt b c Hb Hc' Hbc) as Hcb.
    pose proof (flip_gt a c Ha Hc' Hgt) as Hca.
    pose proof (flip_lt c a Hc' Ha Hca) as Hac.
    pose proof (cf_gt_trans _ _ Hc a c b Ha Hc' Hb Hac Hcb). lia.
Qed.

Lemma le_trans a b c :
  a ∈ l → b ∈ l → c ∈ l → cmp a b ≤ 0 → cmp b c ≤ 0 → cmp a c ≤ 0.
Proof.
  intros Ha Hb Hc' Hab Hbc.
  destruct (decide (cmp a b = 0)) as [Hab0 | Hab0];
    destruct (decide (cmp b c = 0)) as [Hbc0 | Hbc0].
  - rewrite (cf_eq_trans _ _ Hc a b c); done.
  - pose proof (eq_lt_trans a b c Ha Hb Hc' Hab0). lia.
  - pose proof (lt_eq_trans a b c Ha Hb Hc'). lia.
  - pose proof (cf_lt_trans _ _ Hc a b c Ha Hb Hc'). lia.
Qed.

End Consistent.

Lemma consistent_subseteq {A} (cmp : A → A → Z) (l k : list A) :
  k ⊆ l → consistent cmp l → consistent cmp k.
Proof.
  intros Hsub [H1 H2 H3 H4 H5].
  split; intros; eauto 10.
Qed.

Lemma insert_sorted_perm {A} ties (cmp : A → A → Z) x l :
  insert_sorted ties cmp x l ≡ₚ x :: l.
Proof.
  induction l as [| y l IH]; simpl; [done |].
  destruct (if ties then _ else _); [| done].
  rewrite IH. apply Permutation_swap.
Qed.

Lemma insertion_sort_perm {A} ties (cmp : A → A → Z) l :
  insertion_sort ties cmp l ≡ₚ l.
Proof.
  induction l as [| x l IH]; simpl; [done |].
  unfold insertion_sort in IH. by rewrite insert_sorted_perm, IH.
Qed.

Lemma insert_sorted_sorted {A} ties (cmp : A → A → Z) x l :
  consistent cmp (x :: l) →
  StronglySorted (λ a b, cmp a b ≤ 0) l →
  StronglySorted (λ a b, cmp a b ≤ 0) (insert_sorted ties cmp x l).
Proof.
  intros Hc Hs. induction Hs as [| y l Hs IH Hy]; simpl.
  - repeat constructor.
  - destruct (if ties then _ else _) eqn:Htest.
    + constructor.
      * apply IH. eapply consistent_subseteq; [| done].
        intros z. rewrite !elem_of_cons. tauto.
      * rewrite insert_sorted_perm. constructor; [| done].
        apply (flip_le cmp _ Hc); [set_solver.. |].
        destruct ties; lia.
    + assert (cmp x y ≤ 0) as Hxy by (destruct ties; lia).
      constructor; [by constructor |].
      constructor; [done |].
      rewrite Forall_forall in Hy |- *. intros z Hz.
      apply (le_trans cmp _ Hc x y z); [set_solver.. | done | by apply Hy].
Qed.

Lemma insertion_sort_sorted {A} ties (cmp : A → A → Z) l :
  consistent cmp l →
  StronglySorted (λ a b, cmp a b ≤ 0) (insertion_sort ties cmp l).
Proof.
  induction l as [| x l IH]; intros Hc; simpl; [constructor |].
  apply insert_sorted_sorted.
  - eapply consistent_subseteq; [| done].
    intros z. rewrite !elem_of_cons. fold (insertion_sort ties cmp l).
    rewrite insertion_sort_perm. done.
  - apply IH. eapply consistent_subseteq; [| done]. set_solver.
Qed.

(** Both engines keep ECMAScript's promise. *)
#[global] Instance tie_reversing_spec :
  @DataTable.ArraySortSpec Engines.tie_reversing.
Proof.
  split; intros A cmp l.
  - apply insertion_sort_perm.
  - apply insertion_sort_sorted.
Qed.

#[global] Instance stable_spec : @DataTable.ArraySortSpec Engines.stable.
Proof.
  split; intros A cmp l.
  - apply insertion_sort_perm.
  - apply insertion_sort_sorted.
Qed.

End SortingFacts.

(** * The example rows *)
Module UserRowsFacts.
Import Sorting DataTable UserRows.

(** The default comparison of numbers is a consistent comparator. *)
Lemma default_cmp_consistent (k : Field) (dat : list UserData) :
  consistent (default_cmp k) dat.
Proof.
  split; unfold default_cmp; simpl; intros;
    repeat match goal with
           | H : context [?a <? ?b] |- _ => destruct (Z.ltb_spec a b)
           | |- context [?a <? ?b] => destruct (Z.ltb_spec a b)
           end; lia.
Qed.

Lemma primary_cmp_consistent (cols : list Column) (k : Field)
    (dat : list UserData) :
  Forall (λ c, sorter c = None) cols →
  consistent (primary_cmp (find_column cols k) k) dat.
Proof.
  intros Hcols.
  assert (find_column cols k ≫= sorter = None) as Hnone.
  { unfold find_column. destruct (find _ cols) as [c |] eqn:Hfind; [| done].
    apply find_some in Hfind as [Hin _]. simpl.
    rewrite Forall_forall in Hcols. apply Hcols. by apply list_elem_of_In. }
  destruct (default_cmp_consistent k dat) as [H1 H2 H3 H4 H5].
  split; unfold primary_cmp; rewrite Hnone; done.
Qed.

(** A comparator that subtracts two keys is consistent. *)
Lemma decade_cmp_consistent (dat : list UserData) :
  consistent (primary_cmp (Some decade_column) f_age) dat.
Proof.
  split; unfold primary_cmp; simpl; intros; lia.
Qed.

End UserRowsFacts.

(** * Properties of DataTable: sorting *)
Module DataTableSortFacts.
Import Sorting SortingFacts DataTable.

Lemma StronglySorted_strengthen {A} (R R' : A → A → Prop) (l : list A) :
  NoDup l → StronglySorted R l →
  (∀ a b, a ∈ l → b ∈ l → a ≠ b → R a b → R' a b) →
  StronglySorted R' l.
Proof.
  intros Hnd Hs. induction Hs as [| x l Hs IH Hx]; intros HR; [constructor |].
  apply NoDup_cons in Hnd as [Hx_notin Hnd].
  constructor.
  - apply IH; [done |]. intros a b Ha Hb. apply HR; by right.
  - rewrite Forall_forall in Hx |- *. intros y Hy.
    apply HR; [by left | by right | | by apply Hx].
    intros ->. done.
Qed.

Lemma StronglySorted_lookup {A} (R : A → A → Prop) (l : list A) i j x y :
  StronglySorted R l → l !! i = Some x → l !! j = Some y → (i < j)%nat →
  R x y.
Proof.
  intros Hs. revert i j. induction Hs as [| a l Hs IH Ha]; intros i j Hi Hj Hij.
  - done.
  - destruct j as [| j]; [lia |]. destruct i as [| i]; simpl in *.
    + simplify_eq. rewrite Forall_forall in Ha. apply Ha.
      by eapply list_elem_of_lookup_2.
    + apply (IH i j); [done.. | lia].
Qed.

Section Sort.
Context {T K V : Type} `{!RowType T K V}.
Implicit Types (col : option (Column (T:=T) (K:=K))) (k : K) (d : Direction).
Implicit Types (dat : list T) (x y z : T * Z).

Lemma elem_of_decorate dat x :
  x ∈ decorate dat ↔ ∃ i : nat, dat !! i = Some x.1 ∧ x.2 = Z.of_nat i.
Proof.
  unfold decorate. rewrite elem_of_lookup_imap. split.
  - intros (i & a & -> & Hi). by exists i.
  - intros (i & Hi & Hx). exists i, x.1. split; [| done].
    destruct x; simpl in *. by subst.
Qed.

Lemma decorate_fst dat x : x ∈ decorate dat → x.1 ∈ dat.
Proof.
  rewrite elem_of_decorate. intros (i & Hi & _).
  by eapply list_elem_of_lookup_2.
Qed.

Lemma decorate_index_inj dat x y :
  x ∈ decorate dat → y ∈ decorate dat → x.2 = y.2 → x = y.
Proof.
  rewrite !elem_of_decorate. intros (i & Hi & Hxi) (j & Hj & Hyj) Heq.
  assert (i = j) as -> by lia.
  destruct x, y; simpl in *. congruence.
Qed.

Lemma NoDup_decorate dat : NoDup (decorate dat).
Proof.
  apply NoDup_alt. intros i j x Hi Hj. unfold decorate in *.
  rewrite list_lookup_imap in Hi, Hj.
  destruct (dat !! i) eqn:Ei, (dat !! j) eqn:Ej; simplify_eq/=. lia.
Qed.

Lemma fmap_fst_decorate dat : (decorate dat).*1 = dat.
Proof.
  unfold decorate. apply list_eq. intros i.
  rewrite list_lookup_fmap, list_lookup_imap. by destruct (dat !! i).
Qed.

Lemma directed_cmp_sign col k d a b :
  (directed_cmp col k d a b = 0 ↔ primary_cmp col k a b = 0) ∧
  (d = ascending → directed_cmp col k d a b = primary_cmp col k a b) ∧
  (d = descending → directed_cmp col k d a b = - primary_cmp col k a b).
Proof. unfold directed_cmp. destruct d; simpl; split_and!; intros; lia || done. Qed.

(** The comparator handed to [sort], read off the directed comparison. *)
Lemma sort_cmp_directed col k d x y :
  sort_cmp col k d x y =
    if decide (directed_cmp col k d x.1 y.1 = 0) then x.2 - y.2
    else directed_cmp col k d x.1 y.1.
Proof.
  unfold sort_cmp. simpl.
  destruct (directed_cmp_sign col k d x.1 y.1) as [H0 _].
  case_bool_decide; case_decide; try done; tauto.
Qed.

Lemma sort_cmp_lt col k d x y :
  sort_cmp col k d x y < 0 ↔ comes_before col k d x y.
Proof.
  rewrite sort_cmp_directed. unfold comes_before.
  destruct (directed_cmp_sign col k d x.1 y.1) as [H0 _].
  case_decide; intuition lia.
Qed.

Lemma directed_consistent col k d dat :
  consistent (primary_cmp col k) dat → consistent (directed_cmp col k d) dat.
Proof.
  intros Hc. destruct d.
  - destruct Hc as [H1 H2 H3 H4 H5].
    split; unfold directed_cmp; simpl; intros.
    + rewrite H1; done.
    + rewrite H2; [done.. | lia].
    + rewrite (H3 a b c); [done.. | lia | lia].
    + specialize (H4 a b c). intuition lia.
    + specialize (H5 a b c). intuition lia.
  - destruct Hc as [H1 H2 H3 H4 H5].
    split; unfold directed_cmp; simpl; intros.
    + rewrite H1; done.
    + rewrite H2; [done.. | lia].
    + rewrite (H3 a b c); [done.. | lia | lia].
    + specialize (H5 a b c). intuition lia.
    + specialize (H4 a b c). intuition lia.
Qed.

Lemma sort_cmp_consistent col k d dat :
  consistent (primary_cmp col k) dat →
  consistent (sort_cmp col k d) (decorate dat).
Proof.
  intros Hp. pose proof (directed_consistent col k d dat Hp) as Hc.
  split.
  - intros x Hx%decorate_fst. rewrite sort_cmp_directed.
    rewrite (cf_refl _ _ Hc) by done. case_decide; [lia | done].
  - intros x y Hx%decorate_fst Hy%decorate_fst. rewrite !sort_cmp_directed.
    pose proof (cf_sym _ _ Hc x.1 y.1 Hx Hy).
    repeat case_decide; intros; try lia; tauto.
  - intros x y z Hx%decorate_fst Hy%decorate_fst Hz%decorate_fst.
    rewrite !sort_cmp_directed.
    pose proof (cf_eq_trans _ _ Hc x.1 y.1 z.1 Hx Hy Hz).
    repeat case_decide; intros; try lia; tauto.
  - intros x y z Hx%decorate_fst Hy%decorate_fst Hz%decorate_fst.
    rewrite !sort_cmp_directed.
    pose proof (cf_eq_trans _ _ Hc x.1 y.1 z.1 Hx Hy Hz).
    pose proof (cf_lt_trans _ _ Hc x.1 y.1 z.1 Hx Hy Hz).
    pose proof (lt_eq_trans _ _ Hc x.1 y.1 z.1 Hx Hy Hz).
    pose proof (eq_lt_trans _ _ Hc x.1 y.1 z.1 Hx Hy Hz).
    repeat case_decide; intros; lia.
  - intros x y z Hx%decorate_fst Hy%decorate_fst Hz%decorate_fst.
    rewrite !sort_cmp_directed.
    pose proof (cf_eq_trans _ _ Hc x.1 y.1 z.1 Hx Hy Hz).
    pose proof (cf_gt_trans _ _ Hc x.1 y.1 z.1 Hx Hy Hz).
    pose proof (cf_sym _ _ Hc x.1 y.1 Hx Hy).
    pose proof (cf_sym _ _ Hc y.1 z.1 Hy Hz).
    pose proof (cf_sym _ _ Hc z.1 x.1 Hz Hx).
    pose proof (flip_gt _ _ Hc x.1 y.1 Hx Hy).
    pose proof (flip_gt _ _ Hc y.1 z.1 Hy Hz).
    pose proof (flip_lt _ _ Hc z.1 x.1 Hz Hx).
    pose proof (flip_gt _ _ Hc x.1 z.1 Hx Hz).
    pose proof (lt_eq_trans _ _ Hc z.1 y.1 x.1 Hz Hy Hx).
    pose proof (eq_lt_trans _ _ Hc z.1 y.1 x.1 Hz Hy Hx).
    pose proof (cf_eq_trans _ _ Hc z.1 y.1 x.1 Hz Hy Hx).
    repeat case_decide; intros; lia.
Qed.

(** Running the stable insertion sort on decorated rows with the
    comparator of the component, and dropping the decoration, is running
    it on the rows with the directed comparison.  [n] is the index of the
    first row. *)
Lemma undecorate_insert col k d a (n : Z) (l : list (T * Z)) :
  Forall (λ y, n < y.2) l →
  (insert_sorted false (sort_cmp col k d) (a, n) l).*1 =
    insert_sorted false (directed_cmp col k d) a l.*1.
Proof.
  induction 1 as [| y l Hy Hl IH]; simpl; [done |].
  rewrite sort_cmp_directed. simpl.
  case_decide as H0.
  - rewrite H0. simpl.
    destruct (0 <? n - y.2) eqn:E; [apply Z.ltb_lt in E; lia | done].
  - destruct (0 <? _); [| done].
    rewrite fmap_cons. f_equal. exact IH.
Qed.

Lemma undecorate_insertion_sort col k d (n : nat) dat :
  (insertion_sort false (sort_cmp col k d)
     (imap (λ i item, (item, Z.of_nat (n + i))) dat)).*1 =
    insertion_sort false (directed_cmp col k d) dat.
Proof.
  revert n. induction dat as [| a dat IH]; intros n; [done |].
  rewrite imap_cons. simpl.
  rewrite (imap_ext _ (λ i item, (item, Z.of_nat (S n + i)))); last first.
  { intros i x _. simpl. f_equal. lia. }
  fold (insertion_sort false (sort_cmp col k d)
          (imap (λ i item, (item, Z.of_nat (S n + i))) dat)).
  replace (Z.of_nat (n + 0)) with (Z.of_nat n) by lia.
  rewrite undecorate_insert.
  - by rewrite IH.
  - rewrite Forall_forall. intros y.
    rewrite insertion_sort_perm, elem_of_lookup_imap.
    intros (i & x & -> & _). simpl. lia.
Qed.

Lemma undecorate_stable_sort col k d dat :
  (insertion_sort false (sort_cmp col k d) (decorate dat)).*1 =
    stable_sort (directed_cmp col k d) dat.
Proof. apply (undecorate_insertion_sort col k d 0). Qed.

Lemma comes_before_asym col k d dat x y :
  consistent (primary_cmp col k) dat →
  x ∈ decorate dat → y ∈ decorate dat →
  comes_before col k d x y → comes_before col k d y x → False.
Proof.
  intros Hp Hx Hy Hxy%sort_cmp_lt Hyx%sort_cmp_lt.
  pose proof (sort_cmp_consistent col k d dat Hp) as Hc.
  pose proof (flip_lt _ _ Hc x y Hx Hy Hxy). lia.
Qed.

Section Engine.
Context {E : ArraySort} {ES : @ArraySortSpec E}.

(** What [sort] returns on the decorated rows is ordered by
    [comes_before], whichever algorithm the engine runs. *)
Lemma sorted_decorated col k d dat :
  consistent (primary_cmp col k) dat →
  array_sort (sort_cmp col k d) (decorate dat) ≡ₚ decorate dat ∧
  StronglySorted (comes_before col k d)
    (array_sort (sort_cmp col k d) (decorate dat)).
Proof.
  intros Hp.
  pose proof (sort_cmp_consistent col k d dat Hp) as Hc.
  pose proof (array_sort_perm _ (sort_cmp col k d) (decorate dat)) as Hperm.
  split; [done |].
  apply (StronglySorted_strengthen (λ a b, sort_cmp col k d a b ≤ 0)).
  - rewrite Hperm. apply NoDup_decorate.
  - by apply array_sort_sorted.
  - intros a b Ha Hb Hne Hle. rewrite Hperm in Ha, Hb.
    apply sort_cmp_lt.
    destruct (decide (sort_cmp col k d a b = 0)) as [Hzero | ?]; [| lia].
    destruct Hne. apply (decorate_index_inj dat); [done.. |].
    rewrite sort_cmp_directed in Hzero. case_decide; [lia |]. done.
Qed.

End Engine.

(** Two engines that keep ECMAScript's promise return the same array. *)
Lemma engines_agree (E1 E2 : ArraySort)
    `{!@ArraySortSpec E1} `{!@ArraySortSpec E2} col k d dat :
  consistent (primary_cmp col k) dat →
  @array_sort E1 _ (sort_cmp col k d) (decorate dat) =
  @array_sort E2 _ (sort_cmp col k d) (decorate dat).
Proof.
  intros Hp.
  destruct (sorted_decorated (E:=E1) col k d dat Hp) as [Hp1 Hs1].
  destruct (sorted_decorated (E:=E2) col k d dat Hp) as [Hp2 Hs2].
  apply (StronglySorted_unique_strong (comes_before col k d)); [| done.. |].
  - intros x y Hx Hy Hxy Hyx. rewrite Hp1 in Hx. rewrite Hp2 in Hy.
    destruct (comes_before_asym col k d dat x y); done.
  - by rewrite Hp1, Hp2.
Qed.

(** C3, amended: with a sort configuration in place and a comparison that is a
    consistent comparator for the rows, [sortedData] is the stable sort of
    the rows by the directed comparison (the column's [sorter] when the
    column found for the key has one, the default comparison otherwise,
    multiplied by [-1] when descending), whichever algorithm the engine's
    [sort] runs.  It is the undecorated form of the one arrangement of the
    index-decorated rows that is ordered by the directed comparison and,
    among rows that compare equal, by original index; so two rows that
    compare equal stand in the order they had in [data], ascending and
    descending alike. *)
Theorem sortedData_stable {E : ArraySort} {ES : @ArraySortSpec E}
    dat (cols : list (Column (T:=T) (K:=K))) (c : SortConfig (K:=K)) :
  let k := sc_key c in
  let d := sc_direction c in
  let col := find_column cols k in
  consistent (primary_cmp col k) dat →
  sortedData dat (Some c) cols = stable_sort (directed_cmp col k d) dat ∧
  (∃ dec, sortedData dat (Some c) cols = dec.*1 ∧
          dec ≡ₚ decorate dat ∧
          StronglySorted (comes_before col k d) dec) ∧
  (∀ (i j : nat) a b,
     (i < j)%nat → dat !! i = Some a → dat !! j = Some b →
     primary_cmp col k a b = 0 →
     ∃ i' j' : nat,
       (i' < j')%nat ∧
       sortedData dat (Some c) cols !! i' = Some a ∧
       sortedData dat (Some c) cols !! j' = Some b).
Proof.
  intros k d col Hp. unfold sortedData. fold k d col.
  destruct (sorted_decorated col k d dat Hp) as [Hperm Hsorted].
  set (dec := array_sort (sort_cmp col k d) (decorate dat)) in *.
  split_and!.
  - rewrite <- undecorate_stable_sort. f_equal.
    apply (engines_agree E Engines.stable); done.
  - by exists dec.
  - intros i j a b Hij Hi Hj Hab.
    assert ((a, Z.of_nat i) ∈ dec) as [i' Hi']%list_elem_of_lookup_1.
    { rewrite Hperm. apply elem_of_decorate. by exists i. }
    assert ((b, Z.of_nat j) ∈ dec) as [j' Hj']%list_elem_of_lookup_1.
    { rewrite Hperm. apply elem_of_decorate. by exists j. }
    exists i', j'. rewrite !list_lookup_fmap, Hi', Hj'. split_and!; [| done..].
    destruct (Nat.lt_trichotomy i' j') as [? | [-> | Hlt]]; [done | |].
    + rewrite Hi' in Hj'. simplify_eq. lia.
    + pose proof (StronglySorted_lookup _ _ _ _ _ _ Hsorted Hj' Hi' Hlt)
        as [Hdir | [_ Hidx]]; simpl in *; [| lia].
      assert (a ∈ dat) by by eapply list_elem_of_lookup_2.
      assert (b ∈ dat) by by eapply list_elem_of_lookup_2.
      pose proof (cf_sym _ _ Hp a b) as Hsym.
      destruct (directed_cmp_sign col k d b a) as [Hz _].
      assert (directed_cmp col k d b a = 0) by (apply Hz, Hsym; done).
      lia.
Qed.

End Sort.

Section Rows.
Import UserRows UserRowsFacts.

(** Sorting the undecorated rows on the tie-reversing engine swaps the
    rows of equal age; the index the component adds is what keeps them in
    place. *)
Example engine_alone_reverses_ties :
  id <$> @array_sort Engines.tie_reversing _ (default_cmp f_age) rows_with_ties
    = [4; 2; 5; 1; 3].
Proof. reflexivity. Qed.

(** The end-to-end example of the specification, a table with ties and a
    column with a comparator of its own, on an engine whose own [sort]
    reverses ties. *)
Lemma sortedData_stable_witness :
  let cols := [id_column; age_column] in
  let asc := {| sc_key := f_age; sc_direction := ascending |} in
  let desc := {| sc_key := f_age; sc_direction := descending |} in
  id <$> @sortedData _ _ _ _ Engines.tie_reversing three_rows (Some asc) cols
    = [2; 1; 3] ∧
  id <$> @sortedData _ _ _ _ Engines.tie_reversing three_rows (Some desc) cols
    = [3; 1; 2] ∧
  id <$> @sortedData _ _ _ _ Engines.tie_reversing rows_with_ties (Some asc) cols
    = [2; 4; 1; 5; 3] ∧
  id <$> @sortedData _ _ _ _ Engines.tie_reversing rows_with_ties (Some desc) cols
    = [3; 1; 5; 2; 4] ∧
  id <$> @sortedData _ _ _ _ Engines.tie_reversing
           [user 1 39; user 2 31; user 3 25; user 4 35] (Some desc)
           [decade_column]
    = [1; 2; 4; 3].
Proof.
  intros cols asc desc.
  assert (Forall (λ c : Column, sorter c = None) cols) as Hcols
    by (repeat constructor).
  split_and!.
  - rewrite (proj1 (sortedData_stable (E:=Engines.tie_reversing)
                      three_rows cols asc
                      (primary_cmp_consistent cols f_age three_rows Hcols))).
    reflexivity.
  - rewrite (proj1 (sortedData_stable (E:=Engines.tie_reversing)
                      three_rows cols desc
                      (primary_cmp_consistent cols f_age three_rows Hcols))).
    reflexivity.
  - rewrite (proj1 (sortedData_stable (E:=Engines.tie_reversing)
                      rows_with_ties cols asc
                      (primary_cmp_consistent cols f_age rows_with_ties Hcols))).
    reflexivity.
  - rewrite (proj1 (sortedData_stable (E:=Engines.tie_reversing)
                      rows_with_ties cols desc
                      (primary_cmp_consistent cols f_age rows_with_ties Hcols))).
    reflexivity.
  - rewrite (proj1 (sortedData_stable (E:=Engines.tie_reversing)
                      [user 1 39; user 2 31; user 3 25; user 4 35]
                      [decade_column] desc
                      (decade_cmp_consistent _))).
    reflexivity.
Defined.

End Rows.

End DataTableSortFacts.

(** * Properties of DataTable: state *)
Module DataTableFacts.
Import Sorting SortingFacts DataTable DataTableSortFacts.

Section Machine.
Context {T K V : Type} `{!RowType T K V} {E : ArraySort}.
Implicit Types (s : State (T:=T) (K:=K)) (e : Event (T:=T) (K:=K)).
Implicit Types (p : DataTableProps (T:=T) (K:=K)) (h : Hooks (K:=K)).
Implicit Types (dat : list T) (sel : gset Key).

(** Inversion of [step], one lemma per event. *)
Lemma step_ParentRender s p' s' :
  step s (ParentRender p') = Some s' →
  stage s = Idle ∧
  s' = {| props := p'; hooks := hooks s; stage := NeedsRender; calls := calls s |}.
Proof. unfold step. destruct (stage s); intros; by simplify_eq. Qed.

Lemma step_Render s s' :
  step s Render = Some s' →
  stage s = NeedsRender ∧
  s' = with_hooks s (commit (props s) (hooks s)) EffectsPending.
Proof. unfold step. destruct (stage s); intros; by simplify_eq. Qed.

Lemma step_RunEffects s s' :
  step s RunEffects = Some s' →
  stage s = EffectsPending ∧
  let r := clear_effect (props s) (indeterminate_effect (props s) (hooks s)) in
  s' = with_hooks s r.1 (if r.2 then NeedsRender else Idle).
Proof. unfold step. destruct (stage s); intros; by simplify_eq. Qed.

Lemma step_ClickHeader s i s' :
  step s (ClickHeader i) = Some s' →
  stage s = Idle ∧ table_rendered (props s) = true ∧
  ∃ col, columns (props s) !! i = Some col ∧ sortable col = true ∧
    s' = with_hooks s
           (set_sortConfig
              (requestSort (dataIndex col) (sortConfig (hooks s))) (hooks s))
           NeedsRender.
Proof.
  unfold step. destruct (stage s); try done.
  destruct (table_rendered _); [| done].
  destruct (columns _ !! i) as [col |] eqn:Hcol; simpl; [| done].
  destruct (sortable col) eqn:Hs; [| done].
  intros; simplify_eq. eauto 10.
Qed.

Lemma step_ChangeSelectAll s checked s' :
  step s (ChangeSelectAll checked) = Some s' →
  stage s = Idle ∧ select_all_rendered (props s) = true ∧
  s' = after_selection s (handleSelectAll (data (props s)) checked).
Proof.
  unfold step. destruct (stage s); try done.
  destruct (select_all_rendered _); [| done].
  intros; by simplify_eq.
Qed.

Lemma step_ChangeSelectRow s i checked s' :
  step s (ChangeSelectRow i checked) = Some s' →
  stage s = Idle ∧ select_all_rendered (props s) = true ∧
  ∃ row,
    sortedData (data (props s)) (sortConfig (hooks s)) (columns (props s)) !! i
      = Some row ∧
    s' = after_selection s
           (handleSelectRow (data (props s)) (selectedRowIds (hooks s))
              (row_id row) checked).
Proof.
  unfold step. destruct (stage s); try done.
  destruct (select_all_rendered _); [| done].
  destruct (sortedData _ _ _ !! i) as [row |] eqn:Hrow; simpl; [| done].
  intros; simplify_eq. eauto.
Qed.

Lemma step_Idle_ParentRender s p' :
  stage s = Idle →
  step s (ParentRender p') =
    Some {| props := p'; hooks := hooks s; stage := NeedsRender;
            calls := calls s |}.
Proof. unfold step. by intros ->. Qed.

Lemma step_NeedsRender_Render s :
  stage s = NeedsRender →
  step s Render = Some (with_hooks s (commit (props s) (hooks s)) EffectsPending).
Proof. unfold step. by intros ->. Qed.

Lemma step_EffectsPending_RunEffects s :
  stage s = EffectsPending →
  step s RunEffects =
    Some (with_hooks s
            (clear_effect (props s) (indeterminate_effect (props s) (hooks s))).1
            (if (clear_effect (props s)
                   (indeterminate_effect (props s) (hooks s))).2
             then NeedsRender else Idle)).
Proof. unfold step. by intros ->. Qed.

Lemma clear_effect_fires p h :
  clear_deps h ≠ Some (data_ref p) →
  clear_effect p (indeterminate_effect p h) =
    (set_clear_deps (Some (data_ref p))
       (set_selectedRowIds ∅ (indeterminate_effect p h)), true).
Proof.
  intros Hne. unfold clear_effect.
  assert (clear_deps (indeterminate_effect p h) = clear_deps h) as ->.
  { unfold indeterminate_effect. by case_bool_decide. }
  by rewrite bool_decide_false.
Qed.

Lemma elem_of_row_ids dat (k : Key) :
  k ∈ row_ids dat ↔ ∃ row, row ∈ dat ∧ row_id row = k.
Proof.
  unfold row_ids. rewrite elem_of_list_to_set, list_elem_of_fmap.
  split.
  - intros (row & -> & Hrow). by exists row.
  - intros (row & Hrow & <-). by exists row.
Qed.

Lemma run_app s es1 es2 :
  run s (es1 ++ es2) = s' ← run s es1; run s' es2.
Proof.
  revert s. induction es1 as [| e es1 IH]; intros s; simpl; [done |].
  destruct (step s e); simpl; [apply IH | done].
Qed.

Lemma reachable_run s es s' :
  reachable s → run_respects_immutability s es → run s es = Some s' →
  reachable s'.
Proof.
  revert s. induction es as [| e es IH]; simpl; intros s Hs Himm Hrun.
  - by simplify_eq.
  - destruct Himm as [He Himm].
    destruct (step s e) as [s1 |] eqn:Hstep; simpl in *; [| done].
    apply (IH s1); [| done..]. by eapply reachable_step.
Qed.

(** The rows handed to [onRowSelect]: a sub-list of [data], and, when the
    selection holds identifiers of [data] only, with exactly the selected
    identifiers. *)
Lemma selected_rows_sublist dat sel : sublist (selected_rows dat sel) dat.
Proof. apply sublist_filter. Qed.

Lemma selected_rows_ids dat sel (k : Key) :
  sel ⊆ row_ids dat →
  k ∈ row_id <$> selected_rows dat sel ↔ k ∈ sel.
Proof.
  intros Hsub. unfold selected_rows. rewrite list_elem_of_fmap. split.
  - intros (row & -> & Hrow). by apply list_elem_of_filter in Hrow as [? _].
  - intros Hk. destruct (proj1 (elem_of_row_ids dat k) (Hsub k Hk))
      as (row & Hrow & <-).
    exists row. split; [done |]. by apply list_elem_of_filter.
Qed.

Lemma handleSelectAll_subset dat checked :
  (handleSelectAll dat checked).1 ⊆ row_ids dat.
Proof. unfold handleSelectAll, row_ids. destruct checked; simpl; set_solver. Qed.

Lemma handleSelectRow_subset dat sel (k : Key) checked :
  sel ⊆ row_ids dat → k ∈ row_ids dat →
  (handleSelectRow dat sel k checked).1 ⊆ row_ids dat.
Proof.
  intros Hsel Hk. unfold handleSelectRow. destruct checked; simpl; intros j.
  - rewrite elem_of_union, elem_of_singleton. intros [-> | Hj]; auto.
  - rewrite elem_of_difference. intros [Hj _]. auto.
Qed.

Section Engine.
Context {ES : @ArraySortSpec E}.

Lemma sortedData_perm dat cfg (cols : list (Column (T:=T) (K:=K))) :
  sortedData dat cfg cols ≡ₚ dat.
Proof.
  destruct cfg as [c |]; simpl; [| done].
  rewrite array_sort_perm. by rewrite fmap_fst_decorate.
Qed.

(** The invariant of the instance: once the effects of a render have run
    the clearing effect has seen the current array, and whenever it has,
    the selection holds identifiers of the current rows only. *)
Lemma selection_invariant s :
  reachable s →
  (stage s = Idle → clear_deps (hooks s) = Some (data_ref (props s))) ∧
  (clear_deps (hooks s) = Some (data_ref (props s)) →
   selectedRowIds (hooks s) ⊆ row_ids (data (props s))).
Proof.
  induction 1 as [p | s e s' Hs [IHidle IHsub] Himm Hstep].
  - simpl. split; [done |]. intros _. set_solver.
  - destruct e as [p' | | | i | checked | i checked].
    + apply step_ParentRender in Hstep as [Hidle ->]. simpl.
      split; [done |]. intros Hdeps.
      specialize (IHidle Hidle). simpl in Himm.
      rewrite Himm by congruence. apply IHsub. congruence.
    + apply step_Render in Hstep as [Hstage ->]. simpl.
      split; [done |]. done.
    + apply step_RunEffects in Hstep as [Hstage ->]. simpl.
      assert (clear_deps (indeterminate_effect (props s) (hooks s))
              = clear_deps (hooks s)) as Hcd.
      { unfold indeterminate_effect. by case_bool_decide. }
      assert (selectedRowIds (indeterminate_effect (props s) (hooks s))
              = selectedRowIds (hooks s)) as Hsel.
      { unfold indeterminate_effect. by case_bool_decide. }
      unfold clear_effect. rewrite Hcd.
      case_bool_decide as Hdeps; simpl.
      * rewrite Hcd, Hsel. split; [done |]. done.
      * split; [done |]. intros _. set_solver.
    + apply step_ClickHeader in Hstep as (Hidle & _ & col & _ & _ & ->).
      simpl. split; [done |]. done.
    + apply step_ChangeSelectAll in Hstep as (Hidle & _ & ->). simpl.
      split; [done |]. intros _. apply handleSelectAll_subset.
    + apply step_ChangeSelectRow in Hstep as (Hidle & _ & row & Hrow & ->).
      simpl. split; [done |]. intros Hdeps.
      apply handleSelectRow_subset; [by apply IHsub |].
      apply elem_of_row_ids. exists row. split; [| done].
      rewrite <- (sortedData_perm (data (props s)) (sortConfig (hooks s))
                    (columns (props s))).
      by eapply list_elem_of_lookup_2.
Qed.

(** C2, amended: in every reachable state in which the clearing effect
    has run for the current array, and so in every state with no render
    or effect pending, [selectedRowIds] holds identifiers of the current
    rows only.  When the caller passes another array, equal in content or
    not, the render that first sees it still has the selection made on
    the previous array; the effect of that render empties the selection,
    and the render that follows has the empty selection. *)
Theorem selection_subset_once_cleared s :
  reachable s →
  (clear_deps (hooks s) = Some (data_ref (props s)) →
   selectedRowIds (hooks s) ⊆ row_ids (data (props s))) ∧
  (stage s = Idle →
   selectedRowIds (hooks s) ⊆ row_ids (data (props s)) ∧
   ∀ p', data_ref p' ≠ data_ref (props s) →
     ∃ s1 s2,
       run s [ParentRender p'; Render] = Some s1 ∧
       props s1 = p' ∧ stage s1 = EffectsPending ∧
       selectedRowIds (hooks s1) = selectedRowIds (hooks s) ∧
       run s1 [RunEffects; Render] = Some s2 ∧
       props s2 = p' ∧ stage s2 = EffectsPending ∧
       selectedRowIds (hooks s2) = ∅).
Proof.
  intros Hs. destruct (selection_invariant s Hs) as [Hidle Hsub].
  split; [done |]. intros Hstage. split; [by apply Hsub, Hidle |].
  intros p' Hne. specialize (Hidle Hstage).
  eexists _, _. cbn [run].
  rewrite (step_Idle_ParentRender s p' Hstage). cbn [mbind option_bind].
  rewrite step_NeedsRender_Render by done. cbn [mbind option_bind].
  split; [reflexivity |]. do 3 (split; [done |]).
  rewrite step_EffectsPending_RunEffects by done.
  cbn [mbind option_bind props hooks with_hooks].
  rewrite clear_effect_fires by (simpl; congruence).
  cbn [fst snd]. rewrite step_NeedsRender_Render by done.
  cbn [mbind option_bind]. split; [reflexivity |]. done.
Qed.

End Engine.

(** Only a header click writes the sort configuration. *)
Lemma step_sortConfig s e s' :
  step s e = Some s' →
  match e with
  | ClickHeader i =>
      ∃ col, columns (props s) !! i = Some col ∧ sortable col = true ∧
        sortConfig (hooks s') = requestSort (dataIndex col) (sortConfig (hooks s))
  | _ => sortConfig (hooks s') = sortConfig (hooks s)
  end.
Proof.
  intros Hstep. destruct e as [p' | | | i | checked | i checked].
  - by apply step_ParentRender in Hstep as [_ ->].
  - by apply step_Render in Hstep as [_ ->].
  - apply step_RunEffects in Hstep as [_ ->]. simpl.
    unfold clear_effect, indeterminate_effect.
    repeat case_bool_decide; done.
  - apply step_ClickHeader in Hstep as (_ & _ & col & Hcol & Hsort & ->).
    by exists col.
  - by apply step_ChangeSelectAll in Hstep as (_ & _ & ->).
  - by apply step_ChangeSelectRow in Hstep as (_ & _ & row & _ & ->).
Qed.

Lemma requestSort_is_Some (k : K) cfg : is_Some (requestSort k cfg).
Proof.
  unfold requestSort. destruct cfg as [c |]; [| by eexists].
  destruct (_ && _); by eexists.
Qed.

Lemma step_sortConfig_is_Some s e s' :
  step s e = Some s' → is_Some (sortConfig (hooks s)) →
  is_Some (sortConfig (hooks s')).
Proof.
  intros Hstep Hsome. apply step_sortConfig in Hstep.
  destruct e as [p' | | | i | checked | i checked]; try (by rewrite Hstep).
  destruct Hstep as (c & _ & _ & ->). apply requestSort_is_Some.
Qed.

Lemma run_sortConfig_is_Some s es s' :
  run s es = Some s' → is_Some (sortConfig (hooks s)) →
  is_Some (sortConfig (hooks s')).
Proof.
  revert s. induction es as [| e es IH]; simpl; intros s Hrun Hsome.
  - by simplify_eq.
  - destruct (step s e) as [s1 |] eqn:Hstep; simpl in *; [| done].
    apply (IH s1); [done |]. by eapply step_sortConfig_is_Some.
Qed.




(** C10: after a click on a sortable header the sort configuration is
    never [null] again, whatever happens next; it is [null] when the
    component mounts. *)
Theorem sortConfig_never_null_again s i s1 es s2 :
  step s (ClickHeader i) = Some s1 → run s1 es = Some s2 →
  is_Some (sortConfig (hooks s1)) ∧ is_Some (sortConfig (hooks s2)) ∧
  ∀ p, sortConfig (hooks (mount p)) = None.
Proof.
  intros Hclick Hrun.
  assert (is_Some (sortConfig (hooks s1))) as H1.
  { apply step_sortConfig in Hclick as (col & _ & _ & ->).
    apply requestSort_is_Some. }
  split_and!; [done | by eapply run_sortConfig_is_Some | done].
Qed.

(** C6: ticking or unticking a row checkbox or the header checkbox calls
    the supplied [onRowSelect] once, with the rows of [data] whose
    identifier is in the new selection set: a sub-list of [data], in the
    order of [data], whose identifiers are exactly the members of the new
    set. *)
Theorem onRowSelect_receives_selected_rows {ES : @ArraySortSpec E} s e s' :
  reachable s → is_selection_change e = true → step s e = Some s' →
  onRowSelect (props s) = true →
  ∃ rows,
    calls s' = rows :: calls s ∧
    rows = selected_rows (data (props s)) (selectedRowIds (hooks s')) ∧
    sublist rows (data (props s)) ∧
    (∀ k : Key, k ∈ row_id <$> rows ↔ k ∈ selectedRowIds (hooks s')) ∧
    props s' = props s.
Proof.
  intros Hs He Hstep Hcb.
  assert (reachable s') as Hs'.
  { eapply reachable_step; [done | | done]. by destruct e. }
  destruct (selection_invariant s Hs) as [Hidle _].
  destruct (selection_invariant s' Hs') as [_ Hsub'].
  destruct e as [p' | | | i | checked | i checked]; try done.
  - apply step_ChangeSelectAll in Hstep as (Hstage & _ & ->).
    unfold after_selection in *. simpl in *. rewrite Hcb.
    eexists. split_and!; [done | done | apply selected_rows_sublist | | done].
    intros k. apply selected_rows_ids. apply Hsub'. by apply Hidle.
  - apply step_ChangeSelectRow in Hstep as (Hstage & _ & row & Hrow & ->).
    unfold after_selection in *. simpl in *. rewrite Hcb.
    eexists. split_and!; [done | done | apply selected_rows_sublist | | done].
    intros k. apply selected_rows_ids. apply Hsub'. by apply Hidle.
Qed.

End Machine.
(** The [checked] attribute of the header checkbox, as line 148 computes
    it from the selection and the rows of the render. *)
Lemma select_all_checked_iff {T K V : Type} `{!RowType T K V}
    (sel : gset Key) (dat : list T) :
  select_all_checked sel dat = true ↔
  size sel = length dat ∧ (0 < length dat)%nat.
Proof.
  unfold select_all_checked.
  by rewrite andb_true_iff, !bool_decide_eq_true.
Qed.

(** What the first effect writes into a mounted header checkbox when it
    runs. *)
Lemma indeterminate_effect_writes {T K V : Type} `{!RowType T K V}
    (p : DataTableProps (T:=T) (K:=K)) (h : Hooks (K:=K)) (b : bool) :
  indeterminate_deps h ≠ Some (selectedRowIds_ref h, data_ref p) →
  selectAllRef h = Some b →
  selectAllRef (indeterminate_effect p h) =
    Some (bool_decide (0 < size (selectedRowIds h))%nat &&
          bool_decide (size (selectedRowIds h) < length (data p))%nat).
Proof.
  intros Hdeps Href. unfold indeterminate_effect.
  rewrite bool_decide_false by done. simpl. by rewrite Href.
Qed.

Section Rows.
Import UserRows UserRowsFacts.
#[local] Existing Instance Engines.tie_reversing.

Lemma reachable_after (es : list (Event (T:=UserData) (K:=Field))) :
  run_respects_immutability start es → is_Some (run start es) →
  reachable (after es).
Proof.
  intros Himm [s Hrun]. unfold after. rewrite Hrun. simpl.
  eapply reachable_run; [apply reachable_mount | done..].
Qed.

(** C2 as stated fails.  One row of three is selected and the caller then
    passes an array with another row: in the render that follows, before
    its effects run, the selection still holds the identifier [1], which
    no current row has.  The header checkbox of that render is drawn
    checked, one identifier being selected and one row shown. *)
Lemma stale_selection_in_render_of_new_data :
  let es := (mounting ++ tick_first_row ++ another_array)%list in
  run start es = Some (after es) ∧
  reachable (after es) ∧
  stage (after es) = EffectsPending ∧
  data (props (after es)) = [user 7 20] ∧
  selectedRowIds (hooks (after es)) = {[ KNum 1 ]} ∧
  ¬ (selectedRowIds (hooks (after es)) ⊆ row_ids (data (props (after es)))) ∧
  select_all_checked (selectedRowIds (hooks (after es)))
    (data (props (after es))) = true.
Proof.
  intros es. split_and!.
  - by vm_compute.
  - apply reachable_after; [| vm_compute; by eexists].
    vm_compute. repeat split; intros; discriminate.
  - by vm_compute.
  - by vm_compute.
  - by vm_compute.
  - match goal with |- ¬ ?P => apply (bool_decide_eq_false_1 P) end.
    by vm_compute.
  - by vm_compute.
Qed.

Lemma selection_subset_once_cleared_witness :
  let s := after (mounting ++ tick_first_row) in
  let p' := table 1 three_rows false in
  stage s = Idle ∧
  selectedRowIds (hooks s) ⊆ row_ids (data (props s)) ∧
  ∃ s1 s2,
    run s [ParentRender p'; Render] = Some s1 ∧
    props s1 = p' ∧ stage s1 = EffectsPending ∧
    selectedRowIds (hooks s1) = selectedRowIds (hooks s) ∧
    run s1 [RunEffects; Render] = Some s2 ∧
    props s2 = p' ∧ stage s2 = EffectsPending ∧
    selectedRowIds (hooks s2) = ∅.
Proof.
  intros s p'.
  assert (reachable s) as Hs.
  { apply reachable_after; [| vm_compute; by eexists].
    vm_compute. repeat split; intros; discriminate. }
  assert (stage s = Idle) as Hidle by by vm_compute.
  pose proof (selection_subset_once_cleared
                (ES:=SortingFacts.tie_reversing_spec) s Hs) as [_ Hthm].
  split; [done |]. split; [exact (proj1 (Hthm Hidle)) |].
  apply (proj2 (Hthm Hidle) p'). by vm_compute.
Defined.

(** C4, at the input where the code departs from it.  One row of three is
    selected, so the header checkbox is indeterminate.  The caller sets
    [loading] and unsets it, passing the same array: the table, and with
    it the header checkbox, leaves the tree and comes back.  Neither
    [selectedRowIds] nor [data] changed, so the first effect does not run
    for the new checkbox: with one row of three still selected it is
    neither checked nor indeterminate. *)
Theorem indeterminate_lost_on_remount :
  let before := after (mounting ++ tick_first_row) in
  let es := (mounting ++ tick_first_row ++ loading_on_and_off)%list in
  selectAllRef (hooks before) = Some true ∧
  run before loading_on_and_off = Some (after es) ∧
  reachable (after es) ∧
  stage (after es) = Idle ∧
  props (after es) = props before ∧
  selectable (props (after es)) = true ∧
  select_all_rendered (props (after es)) = true ∧
  selectedRowIds (hooks (after es)) = selectedRowIds (hooks before) ∧
  size (selectedRowIds (hooks (after es))) = 1%nat ∧
  length (data (props (after es))) = 3%nat ∧
  select_all_checked (selectedRowIds (hooks (after es)))
    (data (props (after es))) = false ∧
  select_all_indeterminate (selectedRowIds (hooks (after es)))
    (data (props (after es))) = true ∧
  selectAllRef (hooks (after es)) = Some false.
Proof.
  intros before es. split_and!; try by vm_compute.
  apply reachable_after; [| vm_compute; by eexists].
  vm_compute. repeat split; intros; reflexivity.
Qed.

Lemma onRowSelect_receives_selected_rows_witness :
  let s := after mounting in
  let s' := after (mounting ++ [ChangeSelectRow 0 true]) in
  ∃ rows,
    calls s' = rows :: calls s ∧
    rows = selected_rows (data (props s)) (selectedRowIds (hooks s')) ∧
    sublist rows (data (props s)) ∧
    (∀ k : Key, k ∈ row_id <$> rows ↔ k ∈ selectedRowIds (hooks s')) ∧
    props s' = props s.
Proof.
  intros s s'.
  apply (onRowSelect_receives_selected_rows
           (ES:=SortingFacts.tie_reversing_spec) s (ChangeSelectRow 0 true) s').
  - apply reachable_after; [| vm_compute; by eexists].
    vm_compute. repeat split; intros; discriminate.
  - reflexivity.
  - by vm_compute.
  - reflexivity.
Defined.

Lemma sortConfig_never_null_again_witness :
  let s := after mounting in
  let s1 := after (mounting ++ [ClickHeader 1]) in
  let es := ([Render; RunEffects; ClickHeader 1; Render; RunEffects;
              ClickHeader 0; Render; RunEffects]
             ++ tick_first_row ++ another_array)%list in
  let s2 := after (mounting ++ [ClickHeader 1] ++ es) in
  is_Some (sortConfig (hooks s1)) ∧ is_Some (sortConfig (hooks s2)) ∧
  ∀ p : DataTableProps (T:=UserData) (K:=Field),
    sortConfig (hooks (mount p)) = None.
Proof.
  intros s s1 es s2.
  apply (sortConfig_never_null_again s 1 s1 es s2); by vm_compute.
Defined.

End Rows.

End DataTableFacts.

(** * Further properties of InputField *)
Module InputFieldBehaviour.
Import InputField InputFieldFacts.

(** The paragraph a view shows below the input: the error text when it is
    there, the helper text otherwise. *)
Lemma shown_paragraph_cases (p : InputFieldProps) (h : Hooks) :
  match v_error (render p h), v_helper (render p h) with
  | Some e, None =>
      invalid p = true ∧ truthy (errorMessage p) = true ∧
      p_id e = inputId p h ++ "-error"
  | None, Some t =>
      invalid p = false ∧ truthy (helperText p) = true ∧
      p_id t = inputId p h ++ "-help"
  | None, None => True
  | Some _, Some _ => False
  end.
Proof.
  simpl. destruct (invalid p), (truthy (errorMessage p)),
    (truthy (helperText p)); simpl; done.
Qed.

(** Outside the one case in which the field is invalid, has no error
    message and has a helper text, the [aria-describedby] the [input]
    ends up with is, for a caller that passes none of its own, the
    identifier of the paragraph shown below the input, the error
    paragraph taking precedence, and is absent when no paragraph is
    shown.  An [aria-describedby] among the caller's remaining props
    replaces it, whatever is shown and also with the value [undefined];
    [aria-invalid] is the [invalid] flag unless the caller passes one. *)
Theorem describedby_names_shown_paragraph
    (rest : InputFieldSpread.PassThrough) (p : InputFieldProps) (h : Hooks) :
  ¬ (invalid p = true ∧ truthy (errorMessage p) = false ∧
     truthy (helperText p) = true) →
  InputFieldSpread.attr_aria_describedby
    (InputFieldSpread.input_attributes rest p h) =
    match InputFieldSpread.pt_aria_describedby rest with
    | Some given => given
    | None =>
        p_id <$> (match v_error (render p h) with
                  | Some e => Some e
                  | None => v_helper (render p h)
                  end)
    end ∧
  InputFieldSpread.attr_aria_invalid
    (InputFieldSpread.input_attributes rest p h) =
    match InputFieldSpread.pt_aria_invalid rest with
    | Some given => given
    | None => Some (InputFieldSpread.InvalidFlag (invalid p))
    end.
Proof.
  intros Hcase. unfold InputFieldSpread.input_attributes. simpl.
  split; [| done].
  destruct (InputFieldSpread.pt_aria_describedby rest) as [given |]; [done |].
  unfold describedById.
  destruct (invalid p), (truthy (errorMessage p)),
    (truthy (helperText p)); simpl; try done.
  destruct Hcase. done.
Qed.

Lemma describedby_names_shown_paragraph_witness :
  let p := {| label := None; placeholder := None;
              helperText := Some "At least 8 characters";
              errorMessage := Some "Too short";
              disabled := false; invalid := true; loading := false;
              type_ := "password"; value := Some "abc"; onChange := true;
              onClear := false; showClearButton := false;
              id := Some "pw" |} in
  let h := {| isPasswordVisible := false; generatedId := ":r0:" |} in
  let own := {| InputFieldSpread.pt_aria_invalid := None;
                InputFieldSpread.pt_aria_describedby := Some (Some "hint") |} in
  InputFieldSpread.attr_aria_describedby
    (InputFieldSpread.input_attributes InputFieldSpread.nothing_passed p h)
    = Some "pw-error" ∧
  InputFieldSpread.attr_aria_describedby
    (InputFieldSpread.input_attributes own p h) = Some "hint" ∧
  v_helper (render p h) = None.
Proof.
  intros p h own.
  assert (¬ (invalid p = true ∧ truthy (errorMessage p) = false ∧
             truthy (helperText p) = true)) as Hcase.
  { intros (_ & Herr & _). discriminate Herr. }
  split_and!; [| | reflexivity].
  - rewrite (proj1 (describedby_names_shown_paragraph
                      InputFieldSpread.nothing_passed p h Hcase)).
    reflexivity.
  - rewrite (proj1 (describedby_names_shown_paragraph own p h Hcase)).
    reflexivity.
Defined.

(** For a field whose type is not ["password"] the visibility flag is
    inert: the toggle is not in the tree, so no element can change the
    flag, and the rendered tree does not depend on it. *)
Theorem visibility_inert_unless_password (p : InputFieldProps) (h h' : Hooks) :
  type_ p ≠ "password" →
  generatedId h' = generatedId h →
  v_password_toggle (render p h) = None ∧
  render p h' = render p h ∧
  v_input_type (render p h) = type_ p.
Proof.
  intros Htype Hid.
  assert (String.eqb (type_ p) "password" = false) as Heqb
    by by apply String.eqb_neq.
  unfold render, currentType, describedById, inputId.
  rewrite Heqb, Hid. done.
Qed.

Lemma visibility_inert_unless_password_witness :
  let p := {| label := Some "Name"; placeholder := None; helperText := None;
              errorMessage := None; disabled := false; invalid := false;
              loading := false; type_ := "text"; value := Some "Ada";
              onChange := true; onClear := false; showClearButton := false;
              id := None |} in
  let h := {| isPasswordVisible := false; generatedId := ":r1:" |} in
  let h' := {| isPasswordVisible := true; generatedId := ":r1:" |} in
  v_password_toggle (render p h) = None ∧
  render p h' = render p h ∧
  v_input_type (render p h) = "text".
Proof.
  intros p h h'. apply (visibility_inert_unless_password p h h'); [| reflexivity].
  intros Heq. discriminate Heq.
Defined.

(** On an enabled password field the toggle is in the tree and enabled.
    Activating it calls nothing back and flips the visibility flag: the
    input's type goes from masked to plain or back, the toggle's label
    names the opposite action, and nothing else of the tree changes, the
    value, the identifiers and the description included.  Activating it
    twice gives back the state it started from. *)
Theorem password_toggle_flips_type_only (p : InputFieldProps) (h : Hooks) :
  type_ p = "password" → disabled p = false → loading p = false →
  ∃ b, v_password_toggle (render p h) = Some b ∧
    btn_disabled b = false ∧
    btn_aria_label b =
      Some (if isPasswordVisible h then "Hide password" else "Show password") ∧
    v_input_type (render p h) =
      (if isPasswordVisible h then "text" else "password") ∧
    (activate p h b).2 = [] ∧
    let h' := (activate p h b).1 in
    isPasswordVisible h' = negb (isPasswordVisible h) ∧
    v_input_type (render p h') =
      (if isPasswordVisible h then "password" else "text") ∧
    v_input_value (render p h') = v_input_value (render p h) ∧
    v_input_id (render p h') = v_input_id (render p h) ∧
    v_input_disabled (render p h') = v_input_disabled (render p h) ∧
    v_aria_describedby (render p h') = v_aria_describedby (render p h) ∧
    v_label (render p h') = v_label (render p h) ∧
    v_clear_button (render p h') = v_clear_button (render p h) ∧
    v_helper (render p h') = v_helper (render p h) ∧
    v_error (render p h') = v_error (render p h) ∧
    ∃ b', v_password_toggle (render p h') = Some b' ∧
          (activate p h' b').1 = h.
Proof.
  intros Htype Hdis Hload. eexists. split.
  { unfold render; simpl. rewrite Htype. simpl. reflexivity. }
  unfold activate, currentType; simpl. rewrite Htype, Hdis, Hload. simpl.
  destruct h as [vis gid]. simpl.
  split_and!; try done.
  - unfold currentType. simpl. rewrite Htype. by destruct vis.
  - unfold currentType. simpl. rewrite Htype. by destruct vis.
  - eexists. split; [reflexivity |]. simpl.
    unfold togglePasswordVisibility; simpl. by rewrite negb_involutive.
Qed.

Lemma password_toggle_flips_type_only_witness :
  let p := {| label := None; placeholder := None; helperText := None;
              errorMessage := None; disabled := false; invalid := false;
              loading := false; type_ := "password"; value := Some "secret";
              onChange := true; onClear := false; showClearButton := false;
              id := None |} in
  let h := {| isPasswordVisible := false; generatedId := ":r2:" |} in
  ∃ b, v_password_toggle (render p h) = Some b ∧
       v_input_type (render p h) = "password" ∧
       v_input_type (render p (activate p h b).1) = "text" ∧
       v_input_value (render p (activate p h b).1) = Some "secret".
Proof.
  intros p h.
  destruct (password_toggle_flips_type_only p h eq_refl eq_refl eq_refl)
    as (b & Hb & _ & _ & Ht & _ & _ & Ht' & Hv & _).
  exists b. split_and!; [exact Hb | exact Ht | exact Ht' | exact Hv].
Defined.

Lemma append_inj_r (i s1 s2 : string) : i ++ s1 = i ++ s2 → s1 = s2.
Proof. induction i as [| a i IH]; simpl; [done |]. intros [= ?]. auto. Qed.

Lemma append_ne_self (i s : string) : s ≠ EmptyString → i ++ s ≠ i.
Proof.
  intros Hs Heq. apply Hs.
  assert (i ++ EmptyString = i) as Hnil.
  { clear. induction i as [| a i IH]; [done |].
    change (String a (i ++ EmptyString) = String a i). by rewrite IH. }
  apply (append_inj_r i). by rewrite Heq, Hnil.
Qed.

(** The identifiers of one field.  The label, when shown, points at the
    input ([htmlFor] is the input's [id]); the caller's [id] is used
    whenever one is passed, the empty string included, and the generated
    one otherwise; the helper and the error paragraph have identifiers
    different from each other and from the input's, so a reference to one
    of them cannot resolve to another element of the field. *)
Theorem field_identifiers_distinct (p : InputFieldProps) (h : Hooks) :
  v_input_id (render p h) = default (generatedId h) (id p) ∧
  (∀ f t, v_label (render p h) = Some (f, t) →
          f = v_input_id (render p h) ∧ label p = Some t ∧ t ≠ EmptyString) ∧
  (∀ e, v_error (render p h) = Some e →
        p_id e ≠ v_input_id (render p h) ∧
        errorMessage p = Some (p_text e)) ∧
  (∀ t, v_helper (render p h) = Some t →
        p_id t ≠ v_input_id (render p h) ∧
        helperText p = Some (p_text t)) ∧
  (∀ e t, p_id e = inputId p h ++ "-error" → p_id t = inputId p h ++ "-help" →
          p_id e ≠ p_id t).
Proof.
  simpl. split_and!.
  - unfold inputId. by destruct (id p).
  - intros f t [Hl [= -> ->]]%when_Some.
    destruct (label p) as [[| a l] |]; simpl in *; try done.
  - intros e [Ht ->]%when_Some. simpl. split.
    + by apply append_ne_self.
    + apply andb_true_iff in Ht as [Ht _].
      by destruct (errorMessage p) as [[| a l] |].
  - intros t [Ht ->]%when_Some. simpl. split.
    + by apply append_ne_self.
    + apply andb_true_iff in Ht as [Ht _].
      by destruct (helperText p) as [[| a l] |].
  - intros e t -> -> Heq. by apply append_inj_r in Heq.
Qed.

End InputFieldBehaviour.

(** * Further properties of DataTable: the rendered tree and the handlers *)
Module DataTableBehaviour.
Import Sorting SortingFacts DataTable DataTableSortFacts DataTableFacts.
#[local] Set Warnings "-clear-no-such-hyp".

Section Tree.
Context {T K V : Type} `{!RowType T K V} {E : ArraySort}.
Implicit Types (p : DataTableProps (T:=T) (K:=K)) (h : Hooks (K:=K)).
Implicit Types (dat : list T) (sel : gset Key).
Implicit Types (cols : list (Column (T:=T) (K:=K))).

Lemma is_nil_false {A} (l : list A) : is_nil l = false ↔ l ≠ [].
Proof. by destruct l. Qed.

Lemma fmap_tr_row_body_row p h (l : list T) :
  tr_row <$> (body_row p h <$> l) = l.
Proof. induction l as [| row l IH]; simpl; [done |]. by f_equal. Qed.

(** The three render states exclude one another and [loading] wins over
    the empty state.  In the table state there is one header cell per
    column and one body row per row of [data]: whatever the sort
    configuration and the comparator, every row is shown exactly once,
    with one cell per column. *)
Theorem every_row_shown_once {ES : @ArraySortSpec E} p h :
  (loading p = true → ∃ m, render p h = VLoading m) ∧
  (loading p = false → data p = [] → ∃ m, render p h = VEmpty m) ∧
  (loading p = false → data p ≠ [] →
     ∃ sa head body,
       render p h = VTable sa head body ∧
       (is_Some sa ↔ selectable p = true) ∧
       th_title <$> head = title <$> columns p ∧
       tr_row <$> body ≡ₚ data p ∧
       Forall (λ r, length (tr_cells r) = length (columns p)) body).
Proof.
  unfold render. split_and!.
  - intros ->. by eexists.
  - intros -> ->. by eexists.
  - intros -> Hne. apply is_nil_false in Hne. rewrite Hne.
    eexists _, _, _. split; [reflexivity |]. split_and!.
    + destruct (selectable p); split; intros Hs; try done; by destruct Hs.
    + rewrite <- list_fmap_compose. by apply list_fmap_ext.
    + rewrite fmap_tr_row_body_row. apply sortedData_perm.
    + rewrite Forall_fmap. apply Forall_true. intros row. simpl.
      by rewrite length_fmap.
Qed.

(** A [Set] built from a list has at most as many members as the list has
    elements, and as many exactly when no element repeats. *)
Lemma size_list_to_set_le (l : list Key) :
  (size (list_to_set l : gset Key) ≤ length l)%nat.
Proof.
  induction l as [| k l IH].
  - rewrite list_to_set_nil, size_empty. done.
  - rewrite list_to_set_cons, size_union_alt, size_singleton.
    pose proof (subseteq_size (list_to_set l ∖ {[k]})
                  (list_to_set l : gset Key)) as Hsub.
    assert (list_to_set l ∖ {[k]} ⊆ (list_to_set l : gset Key)) as Hdiff.
    { intros j. rewrite elem_of_difference. tauto. }
    specialize (Hsub Hdiff). simpl. lia.
Qed.

Lemma size_list_to_set_eq (l : list Key) :
  size (list_to_set l : gset Key) = length l ↔ NoDup l.
Proof.
  split; [| apply size_list_to_set].
  induction l as [| k l IH]; [constructor |].
  rewrite list_to_set_cons. cbn [length].
  intros Hsize. pose proof (size_list_to_set_le l) as Hle.
  destruct (decide (k ∈ l)) as [Hin | Hnotin].
  - assert ({[k]} ∪ list_to_set l = (list_to_set l : gset Key)) as Heq
      by set_solver.
    rewrite Heq in Hsize. lia.
  - constructor; [done |]. apply IH.
    rewrite size_union in Hsize by set_solver.
    rewrite size_singleton in Hsize. lia.
Qed.

Lemma selected_rows_Forall dat sel :
  Forall (λ row, row_id row ∈ sel) dat → selected_rows dat sel = dat.
Proof.
  unfold selected_rows. induction 1 as [| row dat Hrow Hdat IH]; [done |].
  rewrite filter_cons_True by done. by f_equal.
Qed.

Lemma selected_rows_all dat : selected_rows dat (row_ids dat) = dat.
Proof.
  apply selected_rows_Forall, Forall_forall. intros row Hrow.
  apply elem_of_row_ids. by exists row.
Qed.

Lemma selected_rows_empty dat : selected_rows dat ∅ = [].
Proof.
  unfold selected_rows. induction dat as [| row dat IH]; [done |].
  rewrite filter_cons_False; [done |]. set_solver.
Qed.

(** The header checkbox handler.  Ticking selects the identifier of every
    row and hands [onRowSelect] the whole of [data], in order; unticking
    empties the selection and hands it the empty list.  After ticking,
    the header checkbox is drawn checked exactly when [data] is not empty
    and no two rows share an identifier; when two rows do, the set is
    smaller than the row count and the checkbox is indeterminate although
    every row is selected. *)
Theorem select_all_selects_every_row dat :
  handleSelectAll dat true = (row_ids dat, dat) ∧
  handleSelectAll dat false = (∅, []) ∧
  (∀ row, row ∈ dat → row_id row ∈ (handleSelectAll dat true).1) ∧
  (select_all_checked (handleSelectAll dat true).1 dat = true ↔
     dat ≠ [] ∧ NoDup (row_id <$> dat)) ∧
  (select_all_indeterminate (handleSelectAll dat true).1 dat = true ↔
     ¬ NoDup (row_id <$> dat)).
Proof.
  unfold handleSelectAll. simpl. fold (row_ids dat).
  rewrite selected_rows_all, selected_rows_empty.
  pose proof (size_list_to_set_le (row_id <$> dat)) as Hle.
  pose proof (size_list_to_set_eq (row_id <$> dat)) as Heq.
  rewrite length_fmap in Hle, Heq. fold (row_ids dat) in Hle, Heq.
  split_and!; [done | done | | |].
  - intros row Hrow. apply elem_of_row_ids. by exists row.
  - unfold select_all_checked.
    rewrite andb_true_iff, !bool_decide_eq_true, Heq.
    destruct dat; simpl; split; intros [? ?]; split; try done; lia.
  - unfold select_all_indeterminate.
    rewrite andb_true_iff, !bool_decide_eq_true. split.
    + intros [_ Hlt] Hnd. apply Heq in Hnd. lia.
    + intros Hdup.
      assert (size (row_ids dat) ≠ length dat) as Hne by (by rewrite Heq).
      split; [| lia].
      destruct dat as [| row dat]; [destruct Hdup; constructor |].
      apply Nat.neq_0_lt_0. intros Hz. apply size_empty_inv in Hz.
      assert (row_id row ∈ row_ids (row :: dat)) as Hin.
      { apply elem_of_row_ids. exists row. split; [by left | done]. }
      set_solver.
Qed.

(** The row checkbox handler, composed with itself.  Ticking a row and
    then unticking it removes its identifier from the selection, and
    restores the selection when the identifier was not in it; ticking a
    row that is already selected changes nothing.  What [onRowSelect]
    receives after the untick is what it received after the tick, without
    the rows that carry the identifier. *)
Theorem tick_then_untick dat sel (i : Key) :
  let ticked := handleSelectRow dat sel i true in
  let unticked := handleSelectRow dat (ticked.1) i false in
  i ∈ ticked.1 ∧
  (i ∉ unticked.1) ∧
  unticked.1 = sel ∖ {[ i ]} ∧
  (i ∉ sel → unticked.1 = sel ∧ unticked.2 = selected_rows dat sel) ∧
  (i ∈ sel → ticked.1 = sel ∧ ticked.2 = selected_rows dat sel) ∧
  unticked.2 = filter (λ row, row_id row ≠ i) ticked.2.
Proof.
  unfold handleSelectRow. simpl.
  assert (({[i]} ∪ sel) ∖ {[i]} = sel ∖ {[i]}) as Hdiff by set_solver.
  split_and!.
  - set_solver.
  - set_solver.
  - done.
  - intros Hi. assert (({[i]} ∪ sel) ∖ {[i]} = sel) as -> by set_solver. done.
  - intros Hi. assert ({[i]} ∪ sel = sel) as -> by set_solver. done.
  - unfold selected_rows. rewrite list_filter_filter.
    apply list_filter_iff. intros row. set_solver.
Qed.

(** [columns.find] returns the first column declared on the key: a column
    is found exactly when it stands in [columns] with the key as its
    [dataIndex] and no earlier column has it, and none is found exactly
    when no column has it. *)
Lemma find_column_first cols (k : K) (c : Column) :
  find_column cols k = Some c ↔
  ∃ pre post, cols = (pre ++ c :: post)%list ∧ dataIndex c = k ∧
              Forall (λ c', dataIndex c' ≠ k) pre.
Proof.
  unfold find_column. induction cols as [| c0 cols IH]; simpl.
  - split; [done |]. intros (pre & post & Heq & _). by destruct pre.
  - case_bool_decide as Hk.
    + split.
      * intros [= ->]. by exists [], cols.
      * intros (pre & post & Heq & Hc & Hpre).
        destruct pre as [| c1 pre]; simpl in Heq; simplify_eq; [done |].
        by apply Forall_cons in Hpre as [? _].
    + rewrite IH. split.
      * intros (pre & post & -> & Hc & Hpre).
        exists (c0 :: pre), post. split_and!; [done | done |].
        by constructor.
      * intros (pre & post & Heq & Hc & Hpre).
        destruct pre as [| c1 pre]; simpl in Heq; simplify_eq.
        apply Forall_cons in Hpre as [_ Hpre]. by exists pre, post.
Qed.

Lemma find_column_None cols (k : K) :
  find_column cols k = None ↔ Forall (λ c, dataIndex c ≠ k) cols.
Proof.
  unfold find_column. induction cols as [| c0 cols IH]; simpl.
  - split; [constructor | done].
  - case_bool_decide as Hk.
    + split; [done |]. by intros [? _]%Forall_cons.
    + rewrite IH. split; [by constructor | by intros [_ ?]%Forall_cons].
Qed.

(** The header row against the sort configuration.  A cell carries the
    ascending (descending) mark, in [aria-sort] and as the arrow alike,
    exactly when its column is sortable and the configuration names the
    column's [dataIndex] with that direction; a column that is not
    sortable carries no button, no [aria-sort] and no arrow even when its
    [dataIndex] is the sort key.  The sort key outlives its column: when
    the caller passes columns none of which has the key, no cell is
    marked and the rows are compared by the default comparison. *)
Theorem header_marks_follow_sort_config (cfg : option SortConfig)
    (col : Column (T:=T) (K:=K)) :
  let cell := header_cell cfg col in
  (∀ d, th_arrow cell = Some d ↔
        sortable col = true ∧
        cfg = Some {| sc_key := dataIndex col; sc_direction := d |}) ∧
  (th_aria_sort cell = Some SortAscending ↔ th_arrow cell = Some ascending) ∧
  (th_aria_sort cell = Some SortDescending ↔ th_arrow cell = Some descending) ∧
  (sortable col = false →
     th_button cell = false ∧ th_aria_sort cell = None ∧ th_arrow cell = None) ∧
  (∀ cols c,
     cfg = Some c → Forall (λ c', dataIndex c' ≠ sc_key c) cols →
     Forall (λ cell', th_arrow cell' = None) (header_cell cfg <$> cols) ∧
     ∀ a b, primary_cmp (find_column cols (sc_key c)) (sc_key c) a b
            = default_cmp (sc_key c) a b).
Proof.
  unfold header_cell, isSorted. simpl. split_and!.
  - intros d. destruct cfg as [[k d'] |]; simpl.
    + destruct (sortable col); simpl; [| split; [done | by intros [? _]]].
      case_bool_decide as Hk; simpl.
      * subst k. split; [by intros [= ->] | by intros [_ [= ->]]].
      * split; [done |]. intros [_ [= ? ?]]. done.
    + destruct (sortable col); simpl; split; try done; by intros [_ ?].
  - destruct cfg as [[k d'] |]; simpl; destruct (sortable col); simpl;
      try case_bool_decide; try destruct d'; split; done.
  - destruct cfg as [[k d'] |]; simpl; destruct (sortable col); simpl;
      try case_bool_decide; try destruct d'; split; done.
  - intros ->. done.
  - intros cols c -> Hcols. split.
    + rewrite Forall_fmap. eapply Forall_impl; [exact Hcols |].
      intros c' Hc'. simpl. rewrite bool_decide_false by done.
      by rewrite andb_false_r.
    + intros a b. apply find_column_None in Hcols. by rewrite Hcols.
Qed.

End Tree.

Section Order.
Context {T K V : Type} `{!RowType T K V} {E : ArraySort} {ES : @ArraySortSpec E}.
Implicit Types (dat : list T) (cols : list (Column (T:=T) (K:=K))).
Implicit Types (c : SortConfig (K:=K)).

(** The stable insertion sort leaves a list that is in order as it is. *)
Lemma stable_sort_of_sorted {A} (cmp : A → A → Z) (l : list A) :
  StronglySorted (λ a b, cmp a b ≤ 0) l → stable_sort cmp l = l.
Proof.
  unfold stable_sort, insertion_sort.
  induction 1 as [| x l Hl IH Hx]; simpl; [done |].
  rewrite IH. destruct l as [| y l']; simpl; [done |].
  apply Forall_cons in Hx as [Hxy _].
  destruct (0 <? cmp x y) eqn:Htest; [| done].
  apply Z.ltb_lt in Htest. lia.
Qed.

Lemma stable_sort_sorted {A} (cmp : A → A → Z) (l : list A) :
  consistent cmp l → StronglySorted (λ a b, cmp a b ≤ 0) (stable_sort cmp l).
Proof. apply insertion_sort_sorted. Qed.

Lemma stable_sort_perm {A} (cmp : A → A → Z) (l : list A) :
  stable_sort cmp l ≡ₚ l.
Proof. apply insertion_sort_perm. Qed.

(** [sortedData] as the stable sort by the directed comparison. *)
Lemma sortedData_stable_sort_eq dat cols c :
  consistent (primary_cmp (find_column cols (sc_key c)) (sc_key c)) dat →
  sortedData dat (Some c) cols =
    stable_sort (directed_cmp (find_column cols (sc_key c)) (sc_key c)
                   (sc_direction c)) dat.
Proof.
  intros Hp. unfold sortedData.
  rewrite <- undecorate_stable_sort. f_equal.
  apply (engines_agree E Engines.stable); done.
Qed.

(** With a consistent comparison the rows come out in order: no row
    stands before one it compares greater than in the direction of the
    sort.  Rows that already are in that order are shown as they are,
    ties included, and sorting what was sorted changes nothing. *)
Theorem sortedData_in_order_and_idempotent dat cols c :
  let k := sc_key c in
  let d := sc_direction c in
  let col := find_column cols k in
  consistent (primary_cmp col k) dat →
  StronglySorted (λ a b, directed_cmp col k d a b ≤ 0)
    (sortedData dat (Some c) cols) ∧
  (StronglySorted (λ a b, directed_cmp col k d a b ≤ 0) dat →
   sortedData dat (Some c) cols = dat) ∧
  sortedData (sortedData dat (Some c) cols) (Some c) cols
    = sortedData dat (Some c) cols.
Proof.
  intros k d col Hp.
  pose proof (directed_consistent col k d dat Hp) as Hd.
  pose proof (sortedData_stable_sort_eq dat cols c Hp) as Heq.
  fold k d col in Heq.
  assert (StronglySorted (λ a b, directed_cmp col k d a b ≤ 0)
            (sortedData dat (Some c) cols)) as Hsorted.
  { rewrite Heq. by apply stable_sort_sorted. }
  split_and!.
  - done.
  - intros Hdat. rewrite Heq. by apply stable_sort_of_sorted.
  - assert (consistent (primary_cmp col k) (sortedData dat (Some c) cols))
      as Hp'.
    { eapply consistent_subseteq; [| exact Hp].
      intros x. by rewrite sortedData_perm. }
    rewrite (sortedData_stable_sort_eq _ cols c Hp'). fold k d col.
    by apply stable_sort_of_sorted.
Qed.

Lemma StronglySorted_reverse {A} (R : A → A → Prop) (l : list A) :
  StronglySorted R l → StronglySorted (flip R) (reverse l).
Proof.
  induction 1 as [| x l Hl IH Hx]; [constructor |].
  rewrite reverse_cons. apply StronglySorted_app_2.
  - intros y z Hy Hz. rewrite elem_of_reverse in Hy.
    apply list_elem_of_singleton in Hz. subst z.
    rewrite Forall_forall in Hx. unfold flip. by apply Hx.
  - exact IH.
  - repeat constructor.
Qed.

(** When no two rows compare equal, the descending order is the ascending
    order read backwards.  (With ties it is not: tied rows keep the order
    of [data] in both directions.) *)
Theorem descending_is_reverse_without_ties dat cols (k : K) :
  let col := find_column cols k in
  consistent (primary_cmp col k) dat →
  (∀ (i j : nat) a b,
     i ≠ j → dat !! i = Some a → dat !! j = Some b →
     primary_cmp col k a b ≠ 0) →
  sortedData dat (Some {| sc_key := k; sc_direction := descending |}) cols =
  reverse
    (sortedData dat (Some {| sc_key := k; sc_direction := ascending |}) cols).
Proof.
  intros col Hp Hties. unfold sortedData. simpl. fold col.
  destruct (sorted_decorated col k ascending dat Hp) as [HpA HsA].
  destruct (sorted_decorated col k descending dat Hp) as [HpD HsD].
  rewrite <- fmap_reverse. f_equal.
  apply (StronglySorted_unique_strong (comes_before col k descending)).
  - intros x y Hx Hy Hxy Hyx. rewrite HpD in Hx.
    rewrite reverse_Permutation, HpA in Hy.
    destruct (comes_before_asym col k descending dat x y); done.
  - done.
  - apply (StronglySorted_strengthen (flip (comes_before col k ascending))).
    + rewrite reverse_Permutation, HpA. apply NoDup_decorate.
    + by apply StronglySorted_reverse.
    + intros a b Ha Hb Hne Hba. unfold flip in Hba.
      rewrite reverse_Permutation, HpA in Ha, Hb.
      assert (a.2 ≠ b.2) as Hidx.
      { intros Heq. apply Hne. by apply (decorate_index_inj dat). }
      pose proof (decorate_fst dat a Ha) as Ha1.
      pose proof (decorate_fst dat b Hb) as Hb1.
      apply elem_of_decorate in Ha as (i & Hi & Hai).
      apply elem_of_decorate in Hb as (j & Hj & Hbj).
      assert (j ≠ i) as Hji by (intros ->; lia).
      pose proof (Hties j i b.1 a.1 Hji Hj Hi) as Hnz.
      destruct Hba as [Hlt | [Hz _]]; [| done].
      left. unfold directed_cmp in *. simpl in *.
      pose proof (flip_lt _ _ Hp b.1 a.1 Hb1 Ha1). lia.
  - by rewrite HpD, reverse_Permutation, HpA.
Qed.

End Order.

Section Lifecycle.
Context {T K V : Type} `{!RowType T K V} {E : ArraySort}.
Implicit Types (s : State (T:=T) (K:=K)) (e : Event (T:=T) (K:=K)).
Implicit Types (p : DataTableProps (T:=T) (K:=K)) (h : Hooks (K:=K)).

(** What one render pass (render, commit, effects) leaves unchanged. *)
Lemma effects_frame p h :
  let r := clear_effect p (indeterminate_effect p (commit p h)) in
  sortConfig r.1 = sortConfig h ∧
  clear_deps r.1 = Some (data_ref p) ∧
  (is_Some (selectAllRef r.1) ↔ select_all_rendered p = true) ∧
  (clear_deps h = Some (data_ref p) →
     r.2 = false ∧ selectedRowIds r.1 = selectedRowIds h ∧
     selectedRowIds_ref r.1 = selectedRowIds_ref h) ∧
  (clear_deps h ≠ Some (data_ref p) →
     r.2 = true ∧ selectedRowIds r.1 = ∅).
Proof.
  unfold clear_effect, indeterminate_effect, commit. simpl.
  destruct (select_all_rendered p), (selectAllRef h) as [b |];
    repeat case_bool_decide; simpl;
    split_and!; try done; try (intros; done);
    try (split; intros Hs; try done; by destruct Hs); by eauto.
Qed.

Lemma settle_after_render s :
  stage s = NeedsRender →
  ∃ s',
    (if decide (clear_deps (hooks s) = Some (data_ref (props s)))
     then run s [Render; RunEffects] = Some s' ∧
          selectedRowIds (hooks s') = selectedRowIds (hooks s)
     else run s [Render; RunEffects; Render; RunEffects] = Some s' ∧
          selectedRowIds (hooks s') = ∅) ∧
    stage s' = Idle ∧
    props s' = props s ∧
    calls s' = calls s ∧
    sortConfig (hooks s') = sortConfig (hooks s) ∧
    clear_deps (hooks s') = Some (data_ref (props s)) ∧
    (is_Some (selectAllRef (hooks s')) ↔ select_all_rendered (props s) = true).
Proof.
  intros Hstage.
  destruct (effects_frame (props s) (hooks s))
    as (Hsort & Hdeps & Href & Hsame & Hfire).
  cbn zeta in *.
  set (r := clear_effect (props s)
              (indeterminate_effect (props s) (commit (props s) (hooks s))))
    in *.
  case_decide as Hseen.
  - destruct (Hsame Hseen) as (Hflag & Hsel & _).
    exists (with_hooks s r.1 Idle). cbn [run].
    rewrite step_NeedsRender_Render by done. cbn [mbind option_bind].
    rewrite step_EffectsPending_RunEffects by done.
    cbn [mbind option_bind props hooks with_hooks]. fold r. rewrite Hflag.
    split_and!; done.
  - destruct (Hfire Hseen) as (Hflag & Hsel).
    destruct (effects_frame (props s) r.1)
      as (Hsort2 & Hdeps2 & Href2 & Hsame2 & _).
    cbn zeta in *.
    set (r2 := clear_effect (props s)
                 (indeterminate_effect (props s) (commit (props s) r.1)))
      in *.
    destruct (Hsame2 Hdeps) as (Hflag2 & Hsel2 & _).
    exists (with_hooks s r2.1 Idle). cbn [run].
    rewrite step_NeedsRender_Render by done. cbn [mbind option_bind].
    rewrite step_EffectsPending_RunEffects by done.
    cbn [mbind option_bind props hooks with_hooks]. fold r. rewrite Hflag.
    rewrite step_NeedsRender_Render by done.
    cbn [mbind option_bind props hooks with_hooks].
    rewrite step_EffectsPending_RunEffects by done.
    cbn [mbind option_bind props hooks with_hooks]. fold r2. rewrite Hflag2.
    split_and!; try done; congruence.
Qed.

(** A scheduled render settles: the component reaches a state with
    nothing pending after one render pass, or after two when the clearing
    effect of the first sets state, and never needs a third.  The props,
    the sort configuration and the log of [onRowSelect] calls are what
    they were; the selection is what it was or, when the array is one the
    clearing effect had not seen, empty. *)
Theorem render_settles_within_two_passes s :
  stage s = NeedsRender →
  ∃ s',
    (if decide (clear_deps (hooks s) = Some (data_ref (props s)))
     then run s [Render; RunEffects] = Some s' ∧
          selectedRowIds (hooks s') = selectedRowIds (hooks s)
     else run s [Render; RunEffects; Render; RunEffects] = Some s' ∧
          selectedRowIds (hooks s') = ∅) ∧
    stage s' = Idle ∧
    props s' = props s ∧
    calls s' = calls s ∧
    sortConfig (hooks s') = sortConfig (hooks s) ∧
    clear_deps (hooks s') = Some (data_ref (props s)) ∧
    (is_Some (selectAllRef (hooks s')) ↔ select_all_rendered (props s) = true).
Proof. apply settle_after_render. Qed.

(** The invariant behind the [indeterminate] flag: the dependencies React
    remembers never run ahead of the state, the flag is set only by an
    effect that computed it from the current selection and rows, and once
    the effects have run the remembered dependencies are the current
    ones and the ref is attached exactly when the checkbox is in the
    tree. *)
Lemma indeterminate_invariant s :
  reachable s →
  (∀ r d, indeterminate_deps (hooks s) = Some (r, d) →
          (r ≤ selectedRowIds_ref (hooks s))%nat) ∧
  (indeterminate_deps (hooks s)
     = Some (selectedRowIds_ref (hooks s), data_ref (props s)) →
   selectAllRef (hooks s) = Some true →
   select_all_indeterminate (selectedRowIds (hooks s)) (data (props s)) = true) ∧
  (stage s = Idle →
   indeterminate_deps (hooks s)
     = Some (selectedRowIds_ref (hooks s), data_ref (props s))) ∧
  (stage s ≠ NeedsRender →
   (is_Some (selectAllRef (hooks s)) ↔ select_all_rendered (props s) = true)).
Proof.
  induction 1 as [p | s e s' Hs (IHle & IHflag & IHidle & IHref) Himm Hstep].
  - simpl. split_and!; done.
  - destruct e as [p' | | | i | checked | i checked].
    + apply step_ParentRender in Hstep as [Hidle ->]. simpl in *.
      split_and!; [done | | done | done].
      intros Hdeps Htrue. rewrite (IHidle Hidle) in Hdeps.
      assert (data_ref p' = data_ref (props s)) as Href by congruence.
      rewrite (Himm Href). apply IHflag; [by apply IHidle | done].
    + apply step_Render in Hstep as [Hstage ->]. simpl in *.
      split_and!; [done | | done |].
      * intros Hdeps Htrue. apply IHflag; [done |].
        destruct (select_all_rendered (props s)); [| done].
        by destruct (selectAllRef (hooks s)) as [[] |].
      * intros _. destruct (select_all_rendered (props s)); split;
          intros Hsome; try done; by destruct Hsome.
    + apply step_RunEffects in Hstep as [Hstage ->].
      assert (is_Some (selectAllRef (hooks s))
              ↔ select_all_rendered (props s) = true) as Href
        by (apply IHref; congruence).
      unfold clear_effect, indeterminate_effect in *.
      repeat case_bool_decide; simpl in *; split_and!; try done.
      all: try (intros r d [= <- <-]; lia).
      all: try (intros r d Hdeps; pose proof (IHle _ _ Hdeps); lia).
      all: try (intros Hdeps; pose proof (IHle _ _ Hdeps); lia).
      all: try (intros [= Hbad]; lia).
      all: try (intros _; rewrite fmap_is_Some; exact Href).
      all: intros _; destruct (selectAllRef (hooks s)); simpl;
        [by intros [= ->] | done].
    + apply step_ClickHeader in Hstep as (Hidle & _ & col & _ & _ & ->).
      simpl in *. split_and!; done.
    + apply step_ChangeSelectAll in Hstep as (Hidle & _ & ->). simpl in *.
      split_and!; try done.
      * intros r d Hdeps. pose proof (IHle _ _ Hdeps). lia.
      * intros Hdeps. pose proof (IHle _ _ Hdeps). lia.
    + apply step_ChangeSelectRow in Hstep as (Hidle & _ & row & _ & ->).
      simpl in *. split_and!; try done.
      * intros r d Hdeps. pose proof (IHle _ _ Hdeps). lia.
      * intros Hdeps. pose proof (IHle _ _ Hdeps). lia.
Qed.

(** With nothing pending, the header checkbox is never indeterminate by
    mistake: its [indeterminate] property is set only while some, and
    fewer than the row count, identifiers are selected; and the ref holds
    a checkbox exactly when the table is shown with selection enabled. *)
Theorem indeterminate_only_when_partial s :
  reachable s → stage s = Idle →
  (selectAllRef (hooks s) = Some true →
   select_all_indeterminate (selectedRowIds (hooks s)) (data (props s)) = true ∧
   (0 < size (selectedRowIds (hooks s)) < length (data (props s)))%nat) ∧
  (is_Some (selectAllRef (hooks s)) ↔
   loading (props s) = false ∧ data (props s) ≠ [] ∧
   selectable (props s) = true).
Proof.
  intros Hs Hidle.
  destruct (indeterminate_invariant s Hs) as (_ & Hflag & Hdeps & Href).
  split.
  - intros Htrue. pose proof (Hflag (Hdeps Hidle) Htrue) as Hind.
    split; [done |]. unfold select_all_indeterminate in Hind.
    apply andb_true_iff in Hind as [H1%bool_decide_eq_true H2%bool_decide_eq_true].
    lia.
  - rewrite Href by congruence. unfold select_all_rendered.
    rewrite !andb_true_iff, !negb_true_iff, is_nil_false. tauto.
Qed.

(** Handlers keep to their own state.  Only the two checkbox handlers
    call [onRowSelect], and only when it is supplied; a header click
    changes the sort configuration and nothing else; a checkbox change
    leaves the sort configuration alone; and no event but the caller's
    render changes the props. *)
Theorem handlers_do_not_interfere s e s' :
  step s e = Some s' →
  (is_selection_change e = false ∨ onRowSelect (props s) = false →
   calls s' = calls s) ∧
  (is_selection_change e = true → onRowSelect (props s) = true →
   ∃ rows, calls s' = rows :: calls s) ∧
  (is_selection_change e = true →
   sortConfig (hooks s') = sortConfig (hooks s)) ∧
  (∀ i, e = ClickHeader i →
        selectedRowIds (hooks s') = selectedRowIds (hooks s) ∧
        selectedRowIds_ref (hooks s') = selectedRowIds_ref (hooks s) ∧
        selectAllRef (hooks s') = selectAllRef (hooks s)) ∧
  ((∀ p', e ≠ ParentRender p') → props s' = props s).
Proof.
  intros Hstep. destruct e as [p' | | | i | checked | i checked].
  - apply step_ParentRender in Hstep as [_ ->]. simpl.
    split_and!; try done. intros Hne. by destruct (Hne p').
  - apply step_Render in Hstep as [_ ->]. simpl. split_and!; done.
  - apply step_RunEffects in Hstep as [_ ->]. simpl. split_and!; done.
  - apply step_ClickHeader in Hstep as (_ & _ & col & _ & _ & ->). simpl.
    split_and!; done.
  - apply step_ChangeSelectAll in Hstep as (_ & _ & ->). simpl.
    split_and!; try done.
    + intros [? | ->]; done.
    + intros _ ->. by eexists.
  - apply step_ChangeSelectRow in Hstep as (_ & _ & row & _ & ->). simpl.
    split_and!; try done.
    + intros [? | ->]; done.
    + intros _ ->. by eexists.
Qed.

Section Engine.
Context {ES : @ArraySortSpec E}.

(** A render by the caller against the selection.  When the caller passes
    the array it passed before, whatever else changed, one render pass
    settles and the selection is kept.  When it passes another array, two
    passes settle and the selection is empty; [onRowSelect] is not called
    for this change of the selection, and the sort configuration is
    kept. *)
Theorem new_array_clears_selection_silently s p' :
  reachable s → stage s = Idle →
  (data_ref p' = data_ref (props s) →
   ∃ s', run s [ParentRender p'; Render; RunEffects] = Some s' ∧
         stage s' = Idle ∧ props s' = p' ∧
         selectedRowIds (hooks s') = selectedRowIds (hooks s) ∧
         calls s' = calls s ∧
         sortConfig (hooks s') = sortConfig (hooks s)) ∧
  (data_ref p' ≠ data_ref (props s) →
   ∃ s', run s [ParentRender p'; Render; RunEffects; Render; RunEffects]
           = Some s' ∧
         stage s' = Idle ∧ props s' = p' ∧
         selectedRowIds (hooks s') = ∅ ∧
         calls s' = calls s ∧
         sortConfig (hooks s') = sortConfig (hooks s)).
Proof.
  intros Hs Hidle.
  destruct (selection_invariant s Hs) as [Hdeps _]. specialize (Hdeps Hidle).
  set (s0 := {| props := p'; hooks := hooks s; stage := NeedsRender;
                calls := calls s |}).
  destruct (settle_after_render s0 eq_refl)
    as (s' & Hrun & Hst & Hprops & Hcalls & Hsort & _).
  simpl in *. split; intros Href.
  - rewrite decide_True in Hrun by congruence. destruct Hrun as [Hrun Hsel].
    exists s'. cbn [run].
    rewrite (step_Idle_ParentRender s p' Hidle). cbn [mbind option_bind].
    fold s0. split_and!; done.
  - rewrite decide_False in Hrun by congruence. destruct Hrun as [Hrun Hsel].
    exists s'. cbn [run].
    rewrite (step_Idle_ParentRender s p' Hidle). cbn [mbind option_bind].
    fold s0. split_and!; done.
Qed.

(** With nothing pending, a checked header checkbox means what it shows:
    the selection is the set of identifiers of the rows, no two rows
    share an identifier, and the checkbox of every row is checked. *)
Theorem header_checked_means_all_selected s :
  reachable s → stage s = Idle →
  select_all_checked (selectedRowIds (hooks s)) (data (props s)) = true →
  selectedRowIds (hooks s) = row_ids (data (props s)) ∧
  NoDup (row_id <$> data (props s)) ∧
  ∀ row, row ∈ data (props s) →
    row_id row ∈ selectedRowIds (hooks s) ∧
    tr_highlight (body_row (props s) (hooks s) row) = true ∧
    (selectable (props s) = true →
     tr_checkbox (body_row (props s) (hooks s) row) = Some true).
Proof.
  intros Hs Hidle Hchecked.
  destruct (selection_invariant s Hs) as [Hdeps Hsub].
  specialize (Hsub (Hdeps Hidle)).
  apply select_all_checked_iff in Hchecked as [Hsize Hpos].
  pose proof (size_list_to_set_le (row_id <$> data (props s))) as Hle.
  rewrite length_fmap in Hle. fold (row_ids (data (props s))) in Hle.
  assert (selectedRowIds (hooks s) = row_ids (data (props s))) as Heq.
  { apply set_subseteq_size_eq; [done | lia]. }
  split; [done |]. split.
  - apply size_list_to_set_eq. rewrite length_fmap.
    fold (row_ids (data (props s))). rewrite <- Heq. done.
  - intros row Hrow.
    assert (row_id row ∈ selectedRowIds (hooks s)) as Hin.
    { rewrite Heq. apply elem_of_row_ids. by exists row. }
    simpl. rewrite bool_decide_true by done.
    split_and!; [done | done |]. by intros ->.
Qed.

End Engine.

End Lifecycle.

Lemma every_row_shown_once_witness :
  ∃ sa head body,
    @render _ _ _ _ Engines.tie_reversing
       (UserRows.table 0 UserRows.rows_with_ties false)
       (set_sortConfig
          (Some {| sc_key := UserRows.f_age; sc_direction := descending |})
          initial_hooks)
      = VTable sa head body ∧
    tr_row <$> body ≡ₚ UserRows.rows_with_ties.
Proof.
  destruct (every_row_shown_once (E:=Engines.tie_reversing)
              (ES:=SortingFacts.tie_reversing_spec)
              (UserRows.table 0 UserRows.rows_with_ties false)
              (set_sortConfig
                 (Some {| sc_key := UserRows.f_age;
                          sc_direction := descending |})
                 initial_hooks))
    as (_ & _ & Htable).
  destruct (Htable eq_refl) as (sa & head & body & Hr & _ & _ & Hperm & _).
  { discriminate. }
  by exists sa, head, body.
Defined.

Section Rows.
Import UserRows UserRowsFacts.
#[local] Existing Instance Engines.tie_reversing.

Lemma sortedData_in_order_and_idempotent_witness :
  let c := {| sc_key := f_age; sc_direction := descending |} in
  let cols := [id_column; age_column] in
  let shown := sortedData rows_with_ties (Some c) cols in
  id <$> shown = [3; 1; 5; 2; 4] ∧
  sortedData shown (Some c) cols = shown.
Proof.
  intros c cols shown. split; [reflexivity |].
  apply (sortedData_in_order_and_idempotent
           (ES:=SortingFacts.tie_reversing_spec) rows_with_ties cols c).
  apply primary_cmp_consistent. repeat constructor.
Defined.

Lemma descending_is_reverse_without_ties_witness :
  let cols := [id_column; age_column] in
  id <$> sortedData three_rows
           (Some {| sc_key := f_age; sc_direction := descending |}) cols
    = reverse [2; 1; 3].
Proof.
  intros cols.
  rewrite (descending_is_reverse_without_ties
             (ES:=SortingFacts.tie_reversing_spec) three_rows cols f_age).
  - reflexivity.
  - apply primary_cmp_consistent. repeat constructor.
  - intros i j a b Hij Hi Hj.
    destruct i as [| [| [| i]]]; destruct j as [| [| [| j]]];
      simpl in Hi, Hj; simplify_eq; by vm_compute.
Defined.

Lemma render_settles_within_two_passes_witness :
  ∃ s' : State (T:=UserData) (K:=Field),
    run start [Render; RunEffects; Render; RunEffects] = Some s' ∧
    selectedRowIds (hooks s') = ∅ ∧
    stage s' = Idle ∧
    is_Some (selectAllRef (hooks s')).
Proof.
  destruct (render_settles_within_two_passes start eq_refl)
    as (s' & Hrun & Hstage & _ & _ & _ & _ & Href).
  rewrite decide_False in Hrun by discriminate.
  exists s'. split_and!; [apply Hrun | apply Hrun | exact Hstage |].
  apply Href. reflexivity.
Defined.

Lemma reachable_after_trace (es : list (Event (T:=UserData) (K:=Field))) :
  run_respects_immutability start es → is_Some (run start es) →
  reachable (after es).
Proof.
  intros Himm [s Hrun]. unfold after. rewrite Hrun. simpl.
  eapply reachable_run; [apply reachable_mount | done..].
Qed.

Lemma indeterminate_only_when_partial_witness :
  let s := after (mounting ++ tick_first_row) in
  selectAllRef (hooks s) = Some true ∧
  (0 < size (selectedRowIds (hooks s)) < length (data (props s)))%nat.
Proof.
  intros s.
  assert (selectAllRef (hooks s) = Some true) as Href by by vm_compute.
  split; [exact Href |].
  apply (indeterminate_only_when_partial s); [| by vm_compute | exact Href].
  apply reachable_after_trace; [| vm_compute; by eexists].
  vm_compute. repeat split; intros; discriminate.
Defined.

Lemma handlers_do_not_interfere_witness :
  let s := after (mounting ++ tick_first_row) in
  let s' := after (mounting ++ tick_first_row ++ [ClickHeader 1]) in
  selectedRowIds (hooks s') = selectedRowIds (hooks s) ∧
  calls s' = calls s.
Proof.
  intros s s'.
  assert (step s (ClickHeader 1) = Some s') as Hstep by by vm_compute.
  destruct (handlers_do_not_interfere s (ClickHeader 1) s' Hstep)
    as (Hcalls & _ & _ & Hclick & _).
  split; [apply (Hclick 1%nat eq_refl) | apply Hcalls; by left].
Defined.

Lemma new_array_clears_selection_silently_witness :
  let s := after (mounting ++ [ClickHeader 1; Render; RunEffects]
                  ++ tick_first_row) in
  let p' := table 1 three_rows false in
  size (selectedRowIds (hooks s)) = 1%nat ∧
  ∃ s', run s [ParentRender p'; Render; RunEffects; Render; RunEffects]
          = Some s' ∧
        stage s' = Idle ∧ props s' = p' ∧
        selectedRowIds (hooks s') = ∅ ∧
        calls s' = calls s ∧
        sortConfig (hooks s') = sortConfig (hooks s).
Proof.
  intros s p'. split; [by vm_compute |].
  apply (new_array_clears_selection_silently
           (ES:=SortingFacts.tie_reversing_spec) s p').
  - apply reachable_after_trace; [| vm_compute; by eexists].
    vm_compute. repeat split; intros; discriminate.
  - by vm_compute.
  - by vm_compute.
Defined.

Lemma header_checked_means_all_selected_witness :
  let s := after (mounting ++ [ChangeSelectAll true; Render; RunEffects]) in
  selectedRowIds (hooks s) = row_ids (data (props s)) ∧
  NoDup (row_id <$> data (props s)).
Proof.
  intros s.
  destruct (header_checked_means_all_selected
              (ES:=SortingFacts.tie_reversing_spec) s) as (Heq & Hnd & _).
  - apply reachable_after_trace; [| vm_compute; by eexists].
    vm_compute. repeat split; intros; discriminate.
  - by vm_compute.
  - by vm_compute.
  - by split.
Defined.

End Rows.

End DataTableBehaviour.

(** * The binary insertion engine keeps ECMAScript's promise *)
Module BinarySortFacts.
Import Sorting SortingFacts BinarySort.

Lemma StronglySorted_mono {A} (R R' : A → A → Prop) (l : list A) :
  (∀ a b, a ∈ l → b ∈ l → R a b → R' a b) →
  StronglySorted R l → StronglySorted R' l.
Proof.
  intros HR Hs. induction Hs as [| x l Hs IH Hx]; [constructor |].
  constructor.
  - apply IH. intros a b Ha Hb. apply HR; by right.
  - rewrite Forall_forall in Hx |- *. intros y Hy.
    apply HR; [by left | by right | by apply Hx].
Qed.

Section Comparator.
Context {A : Type} (cmp : A → A → Z).

Lemma le_flip (l : list A) a b :
  consistent cmp l → a ∈ l → b ∈ l → cmp a b ≤ 0 → 0 ≤ cmp b a.
Proof.
  intros Hc Ha Hb Hab. destruct (decide (cmp a b = 0)) as [Hz | Hnz].
  - rewrite (cf_sym _ _ Hc a b); done.
  - pose proof (flip_lt cmp l Hc a b Ha Hb). lia.
Qed.

Lemma lt_le_trans (l : list A) a b c :
  consistent cmp l → a ∈ l → b ∈ l → c ∈ l →
  cmp a b < 0 → cmp b c ≤ 0 → cmp a c < 0.
Proof.
  intros Hc Ha Hb Hc' Hab Hbc. destruct (decide (cmp b c = 0)) as [Hz | Hnz].
  - by apply (lt_eq_trans cmp l Hc a b c).
  - apply (cf_lt_trans _ _ Hc a b c); [done.. | lia].
Qed.

Lemma search_S (fuel : nat) (pivot : A) (l : list A) :
  search (S fuel) cmp pivot l =
    match l !! (length l / 2)%nat with
    | None => O
    | Some y =>
        if cmp pivot y <? 0
        then search fuel cmp pivot (take (length l / 2) l)
        else (S (length l / 2) +
              search fuel cmp pivot (drop (S (length l / 2)) l))%nat
    end.
Proof. reflexivity. Qed.

(** What the binary search finds in a list that is in order: a place
    with nothing greater than the pivot before it and only greater
    elements from it on. *)
Lemma search_split (fuel : nat) (pivot : A) (l : list A) :
  consistent cmp (pivot :: l) →
  StronglySorted (λ a b, cmp a b ≤ 0) l →
  (length l ≤ fuel)%nat →
  ∃ l1 l2, l = (l1 ++ l2)%list ∧
    search fuel cmp pivot l = length l1 ∧
    Forall (λ y, 0 ≤ cmp pivot y) l1 ∧
    Forall (λ y, cmp pivot y < 0) l2.
Proof.
  revert l. induction fuel as [| fuel IH]; intros l Hc Hs Hlen.
  { destruct l; [| simpl in Hlen; lia]. by exists [], []. }
  rewrite search_S.
  destruct (l !! (length l / 2)%nat) as [y |] eqn:Hmid; last first.
  { apply lookup_ge_None in Hmid.
    destruct l as [| x l]; [by exists [], [] |].
    pose proof (Nat.div_lt (length (x :: l)) 2) as Hdiv.
    cbn [length] in Hdiv, Hmid. lia. }
  pose proof (lookup_lt_Some _ _ _ Hmid) as Hlt.
  pose proof (take_drop_middle l _ y Hmid) as Hl.
  set (mid := (length l / 2)%nat) in *.
  set (a := take mid l) in *. set (b := drop (S mid) l) in *.
  assert (length a = mid) as Ha by (unfold a; rewrite length_take; lia).
  assert (length b = (length l - S mid)%nat) as Hb
    by (unfold b; by rewrite length_drop).
  rewrite <- Hl in Hs, Hc.
  apply StronglySorted_app in Hs as (Hab & Hsa & Hsyb).
  apply StronglySorted_inv in Hsyb as [Hsb Hyb].
  rewrite Forall_forall in Hyb.
  assert (pivot ∈ pivot :: a ++ y :: b) as Hp by by left.
  assert (y ∈ pivot :: a ++ y :: b) as Hy.
  { right. apply elem_of_app. right. by left. }
  destruct (cmp pivot y <? 0) eqn:Htest.
  - apply Z.ltb_lt in Htest.
    destruct (IH a) as (a1 & a2 & Heq & Hpos & H1 & H2); [| done | lia |].
    { eapply consistent_subseteq; [| exact Hc].
      intros z. rewrite !elem_of_cons, !elem_of_app. tauto. }
    exists a1, (a2 ++ y :: b)%list. split_and!.
    + by rewrite <- Hl, Heq, <- app_assoc.
    + done.
    + done.
    + apply Forall_app. split; [done |]. constructor; [done |].
      apply Forall_forall. intros z Hz.
      apply (lt_le_trans _ pivot y z Hc); [done | done | | done | by apply Hyb].
      right. apply elem_of_app. right. by right.
  - apply Z.ltb_ge in Htest.
    destruct (IH b) as (b1 & b2 & Heq & Hpos & H1 & H2); [| done | lia |].
    { eapply consistent_subseteq; [| exact Hc].
      intros z. rewrite !elem_of_cons, !elem_of_app, !elem_of_cons. tauto. }
    exists (a ++ y :: b1)%list, b2. split_and!.
    + by rewrite <- Hl, Heq, <- app_assoc.
    + rewrite Hpos, length_app. simpl. lia.
    + apply Forall_app. split; [| by constructor].
      apply Forall_forall. intros z Hz.
      assert (z ∈ pivot :: a ++ y :: b) as Hz'.
      { right. apply elem_of_app. by left. }
      apply (le_flip _ z pivot Hc); [done.. |].
      apply (le_trans cmp _ Hc z y pivot); [done.. | |].
      * apply Hab; [done | by left].
      * by apply (flip_le cmp _ Hc).
    + done.
Qed.

Lemma insert_perm (pivot : A) (l : list A) :
  insert cmp pivot l ≡ₚ pivot :: l.
Proof.
  unfold insert. rewrite <- Permutation_middle. by rewrite take_drop.
Qed.

Lemma insert_sorted (pivot : A) (l : list A) :
  consistent cmp (pivot :: l) →
  StronglySorted (λ a b, cmp a b ≤ 0) l →
  StronglySorted (λ a b, cmp a b ≤ 0) (insert cmp pivot l).
Proof.
  intros Hc Hs.
  destruct (search_split (length l) pivot l Hc Hs ltac:(lia))
    as (l1 & l2 & -> & Hpos & H1 & H2).
  unfold insert. rewrite Hpos, take_app_length, drop_app_length.
  apply StronglySorted_app in Hs as (H12 & Hs1 & Hs2).
  rewrite Forall_forall in H1, H2.
  apply StronglySorted_app. split_and!.
  - intros x1 x2 Hx1 [-> | Hx2]%elem_of_cons.
    + apply (flip_le cmp _ Hc); [by left | | by apply H1].
      right. apply elem_of_app. by left.
    + by apply H12.
  - done.
  - constructor; [done |]. apply Forall_forall. intros z Hz.
    specialize (H2 z Hz). lia.
Qed.

Lemma insert_all_perm (rest sorted : list A) :
  foldl (λ acc pivot, insert cmp pivot acc) sorted rest ≡ₚ (sorted ++ rest)%list.
Proof.
  revert sorted. induction rest as [| x rest IH]; intros sorted; simpl.
  - by rewrite app_nil_r.
  - rewrite IH, insert_perm. by rewrite <- Permutation_middle.
Qed.

Lemma insert_all_sorted (rest sorted : list A) :
  consistent cmp (sorted ++ rest) →
  StronglySorted (λ a b, cmp a b ≤ 0) sorted →
  StronglySorted (λ a b, cmp a b ≤ 0)
    (foldl (λ acc pivot, insert cmp pivot acc) sorted rest).
Proof.
  revert sorted. induction rest as [| x rest IH]; intros sorted Hc Hs; simpl.
  - done.
  - apply IH.
    + eapply consistent_subseteq; [| exact Hc].
      intros z. rewrite elem_of_app, insert_perm, !elem_of_app, !elem_of_cons.
      tauto.
    + apply insert_sorted; [| done].
      eapply consistent_subseteq; [| exact Hc].
      intros z. rewrite !elem_of_cons, !elem_of_app, !elem_of_cons. tauto.
Qed.

Lemma ascending_run_spec (l : list A) (prev : A) :
  l = ((ascending_run cmp prev l).1 ++ (ascending_run cmp prev l).2)%list ∧
  (consistent cmp (prev :: l) →
   StronglySorted (λ a b, cmp a b ≤ 0) (prev :: (ascending_run cmp prev l).1)).
Proof.
  revert prev. induction l as [| x l IH]; intros prev; simpl.
  - split; [done |]. intros _. repeat constructor.
  - destruct (0 <=? cmp x prev) eqn:Htest; simpl.
    + destruct (IH x) as [Heq Hs]. split; [by f_equal |].
      intros Hc. apply Z.leb_le in Htest.
      assert (cmp prev x ≤ 0) as Hpx.
      { apply (flip_le cmp _ Hc); [by right; left | by left | done]. }
      assert (StronglySorted (λ a b, cmp a b ≤ 0)
                (x :: (ascending_run cmp x l).1)) as Hsx.
      { apply Hs. eapply consistent_subseteq; [| exact Hc].
        intros z Hz. by right. }
      constructor; [done |]. constructor; [done |].
      apply StronglySorted_inv in Hsx as [_ Hx].
      rewrite Forall_forall in Hx |- *. intros z Hz.
      apply (le_trans cmp _ Hc prev x z); [by left | by right; left | | done |
                                           by apply Hx].
      right; right. rewrite Heq. apply elem_of_app. by left.
    + split; [done |]. intros _. repeat constructor.
Qed.

Lemma descending_run_spec (l : list A) (prev : A) :
  l = ((descending_run cmp prev l).1 ++ (descending_run cmp prev l).2)%list ∧
  (consistent cmp (prev :: l) →
   StronglySorted (λ a b, cmp b a < 0) (prev :: (descending_run cmp prev l).1)).
Proof.
  revert prev. induction l as [| x l IH]; intros prev; simpl.
  - split; [done |]. intros _. repeat constructor.
  - destruct (cmp x prev <? 0) eqn:Htest; simpl.
    + destruct (IH x) as [Heq Hs]. split; [by f_equal |].
      intros Hc. apply Z.ltb_lt in Htest.
      assert (StronglySorted (λ a b, cmp b a < 0)
                (x :: (descending_run cmp x l).1)) as Hsx.
      { apply Hs. eapply consistent_subseteq; [| exact Hc].
        intros z Hz. by right. }
      constructor; [done |]. constructor; [done |].
      apply StronglySorted_inv in Hsx as [_ Hx].
      rewrite Forall_forall in Hx |- *. intros z Hz.
      apply (cf_lt_trans _ _ Hc z x prev); [| by right; left | by left |
                                            by apply Hx | done].
      right; right. rewrite Heq. apply elem_of_app. by left.
    + split; [done |]. intros _. repeat constructor.
Qed.

Lemma first_run_spec (l : list A) :
  ((first_run cmp l).1 ++ (first_run cmp l).2)%list ≡ₚ l ∧
  (consistent cmp l →
   StronglySorted (λ a b, cmp a b ≤ 0) (first_run cmp l).1).
Proof.
  destruct l as [| x l]; simpl.
  { split; [done |]. intros _. constructor. }
  destruct l as [| y l'].
  { simpl. split; [done |]. intros _. repeat constructor. }
  remember (y :: l') as l eqn:Hl.
  destruct (cmp y x <? 0); cbn [fst snd].
  - destruct (descending_run_spec l x) as [Heq Hs]. split.
    + rewrite reverse_Permutation, <- app_comm_cons. by rewrite <- Heq.
    + intros Hc. specialize (Hs Hc).
      apply DataTableBehaviour.StronglySorted_reverse in Hs.
      eapply StronglySorted_mono; [| exact Hs].
      intros a b _ _. unfold flip. lia.
  - destruct (ascending_run_spec l x) as [Heq Hs]. split.
    + rewrite <- app_comm_cons. by rewrite <- Heq.
    + done.
Qed.

End Comparator.

Lemma sort_perm {A} (cmp : A → A → Z) (l : list A) : sort cmp l ≡ₚ l.
Proof.
  unfold sort. rewrite insert_all_perm. apply first_run_spec.
Qed.

Lemma sort_sorted {A} (cmp : A → A → Z) (l : list A) :
  consistent cmp l → StronglySorted (λ a b, cmp a b ≤ 0) (sort cmp l).
Proof.
  intros Hc. unfold sort. destruct (first_run_spec cmp l) as [Hperm Hs].
  apply insert_all_sorted; [| by apply Hs].
  eapply consistent_subseteq; [| exact Hc]. intros z. by rewrite Hperm.
Qed.

#[global] Instance engine_spec : @DataTable.ArraySortSpec BinarySort.engine.
Proof.
  split; intros A cmp l.
  - apply sort_perm.
  - apply sort_sorted.
Qed.

End BinarySortFacts.

(** * Where the sort and the click cycle stop short *)
Module DataTableLimits.
Import Sorting DataTable.

Section Sparse.
Import SparseRows.

(** C3 as stated fails.  The fourth of seven rows has no age, so the
    default comparison ties it with every row and is not a consistent
    comparator.  On the binary insertion engine, which keeps ECMAScript's
    promise, the fifth and the seventh row, both of age 5, come out in
    the opposite order: the seventh is placed by a search that never
    compares it with the fifth. *)
Lemma ties_swapped_when_a_row_lacks_the_sort_field :
  let c := {| sc_key := f_age; sc_direction := ascending |} in
  let cols := [age_column] in
  let col := find_column cols f_age in
  let fifth := person 5 (Some 5) in
  let seventh := person 7 (Some 5) in
  let shown := @sortedData _ _ _ _ BinarySort.engine seven_rows (Some c) cols in
  @ArraySortSpec BinarySort.engine ∧
  seven_rows !! 4%nat = Some fifth ∧
  seven_rows !! 6%nat = Some seventh ∧
  primary_cmp col f_age fifth seventh = 0 ∧
  id <$> shown = [6; 1; 2; 7; 3; 4; 5] ∧
  ¬ (∃ i j : nat, (i < j)%nat ∧ shown !! i = Some fifth ∧
                  shown !! j = Some seventh) ∧
  shown ≠ stable_sort (directed_cmp col f_age ascending) seven_rows ∧
  ¬ consistent (primary_cmp col f_age) seven_rows.
Proof.
  intros c cols col fifth seventh shown.
  assert (shown = [person 6 (Some 0); person 1 (Some 1); person 2 (Some 2);
                   seventh; person 3 (Some 9); person 4 None; fifth])
    as Hshown by by vm_compute.
  split_and!.
  - apply BinarySortFacts.engine_spec.
  - reflexivity.
  - reflexivity.
  - reflexivity.
  - by rewrite Hshown.
  - rewrite Hshown. intros (i & j & Hlt & Hi & Hj).
    do 7 (destruct i as [| i]; [simplify_eq/= |]);
      try (do 7 (destruct j as [| j]; [simplify_eq/=; try lia |]); done).
  - rewrite Hshown. intros Heq. vm_compute in Heq. discriminate Heq.
  - intros [_ _ Htrans _ _].
    specialize (Htrans (person 1 (Some 1)) (person 4 None) (person 2 (Some 2))).
    assert (person 1 (Some 1) ∈ seven_rows) as H1 by (by left).
    assert (person 4 None ∈ seven_rows) as H4 by (do 3 right; by left).
    assert (person 2 (Some 2) ∈ seven_rows) as H2 by (right; by left).
    specialize (Htrans H1 H4 H2 eq_refl eq_refl).
    vm_compute in Htrans. discriminate Htrans.
Qed.

End Sparse.

Section SharedField.
Import UserRows.
#[local] Existing Instance Engines.tie_reversing.


End SharedField.

End DataTableLimits.
